(** * Delta computation, version guard and population reassembly of lib/model.js

    A shallow embedding of [Model.prototype.$__delta], [checkDivergentArray],
    [Model.prototype.$__version] and [assignRawDocsToIdStructure], and the
    properties of them that the specification states. *)

From Stdlib Require Import ZArith Lia Ascii String.
From stdpp Require Import gmap strings list fin_maps pretty.

#[local] Set Warnings "-register-all,-clear-no-such-hyp".
#[local] Open Scope string_scope.
#[local] Open Scope Z_scope.

(** ** JavaScript values *)

(** The values found in where and update clauses, projections and query
    options.  Numbers are the integers (counters, limits, flags).  A plain
    object is a finite map from property names to values. *)
Inductive jsval :=
| JUndefined
| JNull
| JBool (b : bool)
| JNum (n : Z)
| JStr (s : string)
| JObj (o : gmap string jsval).

(** [ToBoolean]: the test of [if (v)], [a && b] and [a || b]. *)
Definition truthy (v : jsval) : bool :=
  match v with
  | JUndefined | JNull => false
  | JBool b => b
  | JNum n => negb (n =? 0)
  | JStr s => negb (String.eqb s "")
  | JObj _ => true
  end.

(** [v[k]] read on a value that is not [null] or [undefined]; a primitive
    has none of the properties read in this file. *)
Definition get (v : jsval) (k : string) : jsval :=
  match v with
  | JObj o => default JUndefined (o !! k)
  | _ => JUndefined
  end.

(** [v[k] = x] in sloppy mode: on a primitive the assignment is dropped. *)
Definition put (v : jsval) (k : string) (x : jsval) : jsval :=
  match v with
  | JObj o => JObj (<[k := x]> o)
  | _ => v
  end.

(** [utils.object.hasOwnProperty(obj, prop)]. *)
Definition hasOwnProperty (o : gmap string jsval) (k : string) : bool :=
  bool_decide (is_Some (o !! k)).

(** [ToInt32] and the bit operators [&] and [|] of 32-bit integers. *)
Definition ToInt32 (n : Z) : Z :=
  let m := n mod 2 ^ 32 in if m <? 2 ^ 31 then m else m - 2 ^ 32.

Definition bitand (a b : Z) : Z := Z.land (ToInt32 a) (ToInt32 b).
Definition bitor (a b : Z) : Z := Z.lor (ToInt32 a) (ToInt32 b).

Definition VERSION_WHERE : Z := 1.
Definition VERSION_INC : Z := 2.
Definition VERSION_ALL : Z := bitor VERSION_WHERE VERSION_INC.

(** ** The regular expression [/\s?-_id\s?/] *)

(** The ASCII part of the class [\s]. *)
Definition is_space (c : ascii) : bool :=
  let n := nat_of_ascii c in
  ((9 <=? n) && (n <=? 13))%nat || (n =? 32)%nat.

(** A match of [\s?-_id\s?] that starts at the head of [s]: an optional
    blank, the literal, an optional blank. *)
Definition match_here (s : string) : bool :=
  match s with
  | String c r => (is_space c && String.prefix "-_id" r) || String.prefix "-_id" s
  | EmptyString => false
  end.

(** [RegExp.prototype.test] for a pattern without anchors: a match may start
    at any position. *)
Fixpoint regex_test (s : string) : bool :=
  match_here s ||
  match s with
  | String _ r => regex_test r
  | EmptyString => false
  end.

(** ** Documents and dirty records *)

(** [pop.options.select] of a populated path: absent, a string of field
    names or an object of flags; [String(obj)] of the latter is
    ["[object Object]"]. *)
Inductive Select :=
| SelectString (s : string)
| SelectObject (o : gmap string jsval).

(** [pop.options], the options the path was populated with. *)
Record PopulateOptions := {
  match_ : option (gmap string jsval);
  options : option (gmap string jsval);
  select : option Select
}.

(** The new value of a dirty path.  A [MongooseArray] always carries the
    object [_atomics] of its queued operations; other wrapped values
    (buffers, plugin types) may or may not have [_path] and [_atomics]. *)
Inductive DirtyValue :=
| DUndefined
| DNull
| DMongooseArray (_path : jsval) (_atomics : gmap string jsval) (items : list jsval)
| DBuffer (_path : jsval) (_atomics : jsval) (bytes : list Z)
| DOther (_path : jsval) (_atomics : jsval) (raw : jsval).

Definition value_path (v : DirtyValue) : jsval :=
  match v with
  | DUndefined | DNull => JUndefined
  | DMongooseArray p _ _ | DBuffer p _ _ | DOther p _ _ => p
  end.

Definition value_atomics (v : DirtyValue) : jsval :=
  match v with
  | DUndefined | DNull => JUndefined
  | DMongooseArray _ a _ => JObj a
  | DBuffer _ a _ | DOther _ a _ => a
  end.

Definition isBuffer (v : DirtyValue) : bool :=
  match v with DBuffer _ _ _ => true | _ => false end.

(** One entry of [this.$__dirty()]. *)
Record DirtyData := {
  path : string;
  value : DirtyValue;
  schema : jsval
}.

(** The parts of a model instance the delta computation reads and writes:
    [this.$__dirty()], [this.$__.version] (an unset version reads as 0 in
    every test made of it), [this.$__.selected], [this.$__.populated] (by
    path, the options that [doc.populated(path, true)] gives access to),
    [this.schema.options.versionKey] ([None] for [false]),
    [this.isSelected] and the stored values behind [getValue]/[setValue]. *)
Record Document := {
  dirty : list DirtyData;
  version : Z;
  selected : jsval;
  populated : gmap string PopulateOptions;
  versionKey : option string;
  isSelected : string -> bool;
  _doc : gmap string jsval
}.

Definition with_version (v : Z) (this : Document) : Document :=
  {| dirty := dirty this; version := v; selected := selected this;
     populated := populated this; versionKey := versionKey this;
     isSelected := isSelected this; _doc := _doc this |}.

(** Modelled from the spec: the document base's [getValue(path)] and
    [setValue(path, value)] of lib/document.js, which read and write the
    stored value of a path. *)
Definition getValue (this : Document) (k : string) : jsval :=
  default JUndefined (_doc this !! k).

Definition setValue (this : Document) (k : string) (v : jsval) : Document :=
  {| dirty := dirty this; version := version this; selected := selected this;
     populated := populated this; versionKey := versionKey this;
     isSelected := isSelected this; _doc := <[k := v]> (_doc this) |}.

(** The version key as a condition ([if (key)]) and as a property name
    ([false] names the property ["false"]). *)
Definition key_truthy (key : option string) : bool :=
  match key with
  | Some s => negb (String.eqb s "")
  | None => false
  end.

Definition key_name (key : option string) : string :=
  match key with
  | Some s => s
  | None => "false"
  end.

(** ** checkDivergentArray *)

(** [path.split('.')[0]] *)
Fixpoint top_segment (p : string) : string :=
  match p with
  | EmptyString => EmptyString
  | String c r => if Ascii.eqb c "."%char then EmptyString else String c (top_segment r)
  end.

(** [0 === select._id || /\s?-_id\s?/.test(select)] *)
Definition deselected_id (sel : Select) : bool :=
  match sel with
  | SelectString s =>
      (* a string has no property [_id] *)
      regex_test s
  | SelectObject o =>
      match o !! "_id" with
      | Some (JNum 0) => true
      | _ => regex_test "[object Object]"
      end
  end.

Definition select_truthy (sel : Select) : bool :=
  match sel with
  | SelectString s => negb (String.eqb s "")
  | SelectObject _ => true
  end.

(** The condition [check] of checkDivergentArray. *)
Definition check (pop : PopulateOptions) : bool :=
  bool_decide (is_Some (match_ pop))
  || match options pop with
     | Some o => hasOwnProperty o "limit"
     | None => false
     end
  || match options pop with
     | Some o => truthy (default JUndefined (o !! "skip"))
     | None => false
     end
  || match select pop with
     | Some sel => select_truthy sel && deselected_id sel
     | None => false
     end.

Definition checkDivergentArray (doc : Document) (path : string) (array : DirtyValue)
  : option string :=
  let top := top_segment path in
  match populated doc !! path with
  | None =>
      (* [!pop]: only the projection is looked at *)
      if truthy (selected doc)
         && truthy (get (selected doc) top)
         && truthy (get (get (selected doc) top) "$elemMatch")
      then Some top
      else None
  | Some pop =>
      match array with
      | DMongooseArray _ atomics _ =>
          if check pop
             && ((size atomics =? 0)%nat
                 || truthy (get (JObj atomics) "$set")
                 || truthy (get (JObj atomics) "$pop"))
          then Some path
          else None
      | _ => None
      end
  end.

(** ** Model.prototype.$__version *)

(** The first argument of [$__version]: the sentinel [true] of an insert, or
    the where clause of an update. *)
Inductive WhereArg :=
| WhereTrue
| WhereClause (w : gmap string jsval).

(** The update part of [$__version], on a where clause that is an object. *)
Definition version_update (this : Document) (w delta : gmap string jsval)
  : gmap string jsval * gmap string jsval :=
  let key := key_name (versionKey this) in
  if negb (isSelected this key) then (w, delta)
  else
    let w :=
      if VERSION_WHERE =? bitand VERSION_WHERE (version this)
      then <[key := getValue this key]> w
      else w in
    let delta :=
      if VERSION_INC =? bitand VERSION_INC (version this)
      then
        (* delta.$inc || (delta.$inc = {}) *)
        let delta :=
          if truthy (get (JObj delta) "$inc") then delta
          else <["$inc" := JObj ∅]> delta in
        (* delta.$inc[key] = 1 *)
        <["$inc" := put (get (JObj delta) "$inc") key (JNum 1)]> delta
      else delta in
    (w, delta).

(** [this.$__version(where, delta)]: the document, the where argument and
    the update object after the call. *)
Definition Model__version (this : Document) (where_ : WhereArg)
    (delta : gmap string jsval) : Document * WhereArg * gmap string jsval :=
  let key := versionKey this in
  match where_ with
  | WhereTrue =>
      (* this is an insert *)
      if key_truthy key
      then (setValue this (key_name key) (JNum 0), WhereTrue,
            <[key_name key := JNum 0]> delta)
      else (this, WhereTrue, delta)
  | WhereClause w =>
      let '(w', delta') := version_update this w delta in
      (this, WhereClause w', delta')
  end.

(** ** Model.prototype.$__delta *)

(** What a call of [$__delta] gives: it returns nothing, the error or the
    pair [[where, delta]], or it throws the ReferenceError of a name that is
    not bound. *)
Inductive DeltaResult :=
| NoDelta
| DivergentArrayError (paths : list string)
| Delta (where_ delta : gmap string jsval)
| ReferenceError (name : string).

(** The two clauses under construction, [where] and [delta]. *)
Record Clauses := {
  c_where : gmap string jsval;
  c_delta : gmap string jsval
}.

(** A part of the loop body completes with a value, or throws the
    ReferenceError of a name. *)
Inductive Completion (A : Type) :=
| Normal (a : A)
| Throw (name : string).

Arguments Normal {A} a.
Arguments Throw {A} name.

Definition completion_map {A B} (f : A -> B) (x : Completion A)
  : Completion B :=
  match x with
  | Normal a => Normal (f a)
  | Throw name => Throw name
  end.

(** [if (match)] on the string or [undefined] that checkDivergentArray
    returns. *)
Definition match_truthy (m : option string) : bool :=
  match m with
  | Some s => negb (String.eqb s "")
  | None => false
  end.

(** The classification of a value that is not divergent.  Every branch ends
    in a call of [operand] or of [handleAtomics].  lib/model.js neither
    defines nor requires a function of either name, so that the call throws
    the ReferenceError of the name, before its arguments are looked at;
    what [value.toObject()] and [utils.clone(value, {depopulate: 1})] gave
    just before is lost with it. *)
Definition add_operand (this : Document) (c : Clauses) (data : DirtyData)
  : Completion Clauses :=
  let v := value data in
  match v with
  | DUndefined => Throw "operand"
  | DNull => Throw "operand"
  | _ =>
      if truthy (value_path v) && truthy (value_atomics v)
      then Throw "handleAtomics"
      else if truthy (value_path v) && isBuffer v
      then (* value = value.toObject() *) Throw "operand"
      else (* value = utils.clone(value, { depopulate: 1 }) *) Throw "operand"
  end.

(** One turn of the loop over the dirty records; the state is the clauses
    and the list [divergent]. *)
Definition delta_step (this : Document) (st : Clauses * list string)
    (data : DirtyData) : Completion (Clauses * list string) :=
  let '(c, divergent) := st in
  let rest :=
    (* if (divergent.length) continue; *)
    if negb (length divergent =? 0)%nat then Normal (c, divergent)
    else completion_map (fun c' => (c', divergent)) (add_operand this c data) in
  match checkDivergentArray this (path data) (value data) with
  | Some m =>
      if match_truthy (Some m) then Normal (c, (divergent ++ [m])%list)
      else rest
  | None => rest
  end.

(** The loop: a turn that throws ends it. *)
Fixpoint delta_loop (this : Document) (l : list DirtyData)
    (st : Clauses * list string) : Completion (Clauses * list string) :=
  match l with
  | [] => Normal st
  | data :: l =>
      match delta_step this st data with
      | Normal st' => delta_loop this l st'
      | Throw name => Throw name
      end
  end.

(** [this.$__delta()]: the document after the call and what the call
    gave. *)
Definition Model__delta (this : Document) : Document * DeltaResult :=
  let dirty := dirty this in
  if (length dirty =? 0)%nat && negb (VERSION_ALL =? version this)
  then (this, NoDelta)
  else
    match delta_loop this dirty ({| c_where := ∅; c_delta := ∅ |}, []) with
    | Throw name => (this, ReferenceError name)
    | Normal (c, divergent) =>
        if negb (length divergent =? 0)%nat
        then (this, DivergentArrayError divergent)
        else if negb (version this =? 0)
        then
          match Model__version this (WhereClause (c_where c)) (c_delta c) with
          | (this', WhereClause w, d) => (this', Delta w d)
          | (this', WhereTrue, d) => (this', Delta (c_where c) d)
          end
        else (this, Delta (c_where c) (c_delta c))
    end.

(** ** assignRawDocsToIdStructure *)

(** A JavaScript array that may have holes: [None] is an index that was
    never assigned; the length of the list is the [length] of the array. *)
Definition array_push {A} (a : list (option A)) (v : A) : list (option A) :=
  (a ++ [Some v])%list.

(** [a[i] = v]: in range the element is replaced, out of range the array
    grows and the indices in between stay holes. *)
Definition array_set {A} (a : list (option A)) (i : nat) (v : A)
  : list (option A) :=
  if decide (i < length a)%nat then <[i := Some v]> a
  else (a ++ replicate (i - length a) None ++ [Some v])%list.

Section Reassembly.

(** The documents the population query returned, and [String(doc)]. *)
Context {Doc : Type} (Doc_toString : Doc -> string).

(** What is not an array: [undefined], [null], the ids (numbers, strings,
    ObjectIDs, which print as their hex string) and the documents that
    take their place. *)
Inductive scalar :=
| SUndefined
| SNull
| SNum (n : Z)
| SStr (s : string)
| SObjectID (hex : string)
| SDoc (d : Doc).

(** The id structure: scalars and nested arrays of them. *)
Inductive idval :=
| VScalar (s : scalar)
| VArr (a : list (option idval)).

(** [String(id)] *)
Definition String_ (id : scalar) : string :=
  match id with
  | SUndefined => "undefined"
  | SNull => "null"
  | SNum n => pretty n
  | SStr s => s
  | SObjectID hex => hex
  | SDoc d => Doc_toString d
  end.

Definition is_null (id : scalar) : bool :=
  match id with SNull => true | _ => false end.

(** [resultDocs] and [resultOrder] are plain objects keyed by the string
    form of the ids; the values of the first are documents (objects, so
    truthy), those of the second are array indices.  [sort] is the
    truthiness of [options.sort]. *)
Variable resultDocs : gmap string Doc.
Variable resultOrder : gmap string nat.

(** Readings of the specification: what a position that holds a scalar
    receives in a top-level (findOne) call, and in a recursive (find) call
    that is not sorting; [entry_of] extends them to nested arrays and holes. *)
Definition findOne_entry (sorting : bool) (s : scalar) : idval :=
  if is_null s && negb sorting then VScalar SNull
  else
    match resultDocs !! String_ s with
    | Some d => VScalar (SDoc d)
    | None => VScalar SNull
    end.

Definition find_entry (s : scalar) : idval :=
  if is_null s then VScalar SNull
  else
    match resultDocs !! String_ s with
    | Some d => VScalar (SDoc d)
    | None => VScalar s
    end.

Definition entry_of (rec : idval -> idval)
    (f : scalar -> idval) (e : option (idval)) : idval :=
  match e with
  | Some (VArr _ as id) => rec id
  | Some (VScalar s) => f s
  | None => f SUndefined
  end.

(** [rawIds[i]], reading a hole as [undefined]. *)
Definition read (e : option idval) : idval :=
  default (VScalar SUndefined) e.

(** The body of the loop for an [id] that is not an array. *)
Definition place (sorting recursed : bool) (i : nat) (id : scalar)
    (newOrder : list (option idval)) : list (option idval) :=
  if is_null id && negb sorting
  then
    (* keep nulls for findOne unless sorting *)
    array_push newOrder (VScalar id)
  else
    let sid := String_ id in
    if recursed
    then
      (* apply find behavior *)
      match resultDocs !! sid with
      | Some doc =>
          if sorting
          then
            match resultOrder !! sid with
            | Some k => array_set newOrder k (VScalar (SDoc doc))
            | None =>
                (* newOrder[undefined] = doc sets no element *)
                newOrder
            end
          else array_push newOrder (VScalar (SDoc doc))
      | None => array_push newOrder (VScalar id)
      end
    else
      (* apply findOne behavior *)
      array_set newOrder i
        (match resultDocs !! sid with
         | Some doc => VScalar (SDoc doc)
         | None => VScalar SNull
         end).

(** The loop over [rawIds]; [rec] is the recursive call on a nested
    array, which rebuilds it in place before it is pushed. *)
Definition assign_loop (rec : idval -> idval) (sorting recursed : bool) :=
  fix go (l : list (option idval)) (i : nat) (newOrder : list (option idval))
    {struct l} : list (option idval) :=
    match l with
    | [] => newOrder
    | e :: tl =>
        go tl (S i)
          (match e with
           | Some (VArr _ as id) => array_push newOrder (rec id)
           | Some (VScalar id) => place sorting recursed i id newOrder
           | None => place sorting recursed i SUndefined newOrder
           end)
    end.

(** [rawIds.length = 0; newOrder.forEach(function (doc, i) { rawIds[i] = doc })]:
    forEach skips the holes of [newOrder]. *)
Fixpoint forEach_assign (newOrder : list (option idval)) (i : nat)
    (rawIds : list (option idval)) : list (option idval) :=
  match newOrder with
  | [] => rawIds
  | None :: tl => forEach_assign tl (S i) rawIds
  | Some doc :: tl => forEach_assign tl (S i) (array_set rawIds i doc)
  end.

Section WithSort.
Variable sort : bool.

(** [options.sort && rawIds.length > 1] *)
Definition sorting_of (rawIds : list (option idval)) : bool :=
  sort && (1 <? length rawIds)%nat.

(** The recursive call, on a nested array: [recursed] is [true]. *)
Fixpoint assign_nested (v : idval) : idval :=
  match v with
  | VArr rawIds =>
      VArr (forEach_assign
              (assign_loop assign_nested (sorting_of rawIds) true rawIds 0%nat [])
              0%nat [])
  | VScalar s => VScalar s
  end.

(** [assignRawDocsToIdStructure(rawIds, resultDocs, resultOrder, options, recursed)]:
    the elements of [rawIds] after the call. *)
Definition assignRawDocsToIdStructure (rawIds : list (option idval))
    (recursed : bool) : list (option idval) :=
  forEach_assign
    (assign_loop assign_nested (sorting_of rawIds) recursed rawIds 0%nat [])
    0%nat [].

End WithSort.

End Reassembly.

Arguments scalar : clear implicits.
Arguments idval : clear implicits.

(** ** Readings of the specification *)

(** The match a dirty record contributes to the list [divergent]. *)
Definition divergence (this : Document) (data : DirtyData) : option string :=
  let m := checkDivergentArray this (path data) (value data) in
  if match_truthy m then m else None.

(** A projection that deselects the identifier: an object whose flag [_id]
    is exactly 0, or a string in which the token [-_id] occurs. *)
Definition excludes_id (sel : Select) : Prop :=
  match sel with
  | SelectObject o => o !! "_id" = Some (JNum 0)
  | SelectString s => exists pre post, s = pre ++ "-_id" ++ post
  end.

(** Population options that limited the documents fetched: a match filter,
    a limit key (whatever its value), a positive skip, or a projection that
    deselects the identifier. *)
Definition limited_population (pop : PopulateOptions) : Prop :=
  is_Some (match_ pop)
  \/ (exists o, options pop = Some o /\ is_Some (o !! "limit"))
  \/ (exists o n, options pop = Some o /\ o !! "skip" = Some (JNum n) /\ 0 < n)
  \/ (exists sel, select pop = Some sel /\ excludes_id sel).

(** The path's top-level segment was selected with [$elemMatch]. *)
Definition projected_elemMatch (doc : Document) (path : string) : Prop :=
  truthy (get (get (selected doc) (top_segment path)) "$elemMatch") = true.

(** No atomic operation is queued, or a full replace or a pop is. *)
Definition destructive_atomics (atomics : gmap string jsval) : Prop :=
  size atomics = 0%nat
  \/ truthy (get (JObj atomics) "$set") = true
  \/ truthy (get (JObj atomics) "$pop") = true.

(** The INC and WHERE bits of a version state, as [$__version] tests them. *)
Definition inc_bit (v : Z) : Prop := bitand VERSION_INC v = VERSION_INC.
Definition where_bit (v : Z) : Prop := bitand VERSION_WHERE v = VERSION_WHERE.

(** [n or 0], for the value of a counter that may be missing. *)
Definition number_or_0 (v : jsval) : Z :=
  match v with
  | JNum n => n
  | _ => 0
  end.

(** *** Statements that the code does not meet, as the specification words them *)

(** A version-only increment request (no dirty record, INC bit set) yields
    a delta that increments the version key by 1, and whose where omits the
    version key when the WHERE bit is clear. *)
Definition stated_version_only_delta
    (delta_of : Document -> Document * DeltaResult) (this : Document) : Prop :=
  dirty this = [] ->
  inc_bit (version this) ->
  exists w d,
    (delta_of this).2 = Delta w d
    /\ get (get (JObj d) "$inc") (key_name (versionKey this)) = JNum 1
    /\ (~ where_bit (version this) -> w !! key_name (versionKey this) = None).

(** With the insert sentinel the version step sets update.$set[versionKey]
    to 0, stores 0 as the version value and leaves where alone. *)
Definition stated_insert_sets_set_entry (this : Document)
    (delta : gmap string jsval) : Prop :=
  let key := key_name (versionKey this) in
  let '(this', where', delta') := Model__version this WhereTrue delta in
  get (get (JObj delta') "$set") key = JNum 0
  /\ getValue this' key = JNum 0
  /\ where' = WhereTrue.

(** A write under an [$elemMatch]-projected segment is flagged at that
    segment, populated or not. *)
Definition stated_elemMatch_always_flags (doc : Document) (path : string)
    (array : DirtyValue) : Prop :=
  projected_elemMatch doc path ->
  checkDivergentArray doc path array = Some (top_segment path).

(** With the INC bit set and the version key selected, update.$inc[versionKey]
    becomes its previous value, or 0, plus 1. *)
Definition stated_inc_accumulates (this : Document)
    (w delta : gmap string jsval) : Prop :=
  let key := key_name (versionKey this) in
  inc_bit (version this) ->
  isSelected this key = true ->
  get (get (JObj (Model__version this (WhereClause w) delta).2) "$inc") key
  = JNum (number_or_0 (get (get (JObj delta) "$inc") key) + 1).

(** Nulls are preserved when no sort was requested and dropped whenever one
    was. *)
Definition stated_sort_drops_nulls {Doc} (Doc_toString : Doc -> string)
    (resultDocs : gmap string Doc) (resultOrder : gmap string nat)
    (sort recursed : bool) (rawIds : list (option (idval Doc))) : Prop :=
  let out := assignRawDocsToIdStructure Doc_toString resultDocs resultOrder
               sort rawIds recursed in
  (sort = false ->
   forall i, rawIds !! i = Some (Some (VScalar SNull)) ->
             out !! i = Some (Some (VScalar SNull)))
  /\ (sort = true -> forall i, out !! i <> Some (Some (VScalar SNull))).

(** With a sort requested on a sequence of length 0 or 1 the call behaves
    exactly as the unsorted one. *)
Definition stated_short_sequence_unsorted {Doc} (Doc_toString : Doc -> string)
    (resultDocs : gmap string Doc) (resultOrder : gmap string nat)
    (recursed : bool) (rawIds : list (option (idval Doc))) : Prop :=
  (length rawIds <= 1)%nat ->
  assignRawDocsToIdStructure Doc_toString resultDocs resultOrder true
    rawIds recursed
  = assignRawDocsToIdStructure Doc_toString resultDocs resultOrder false
      rawIds recursed.

(** ** Sample documents *)

(** A document loaded in full, with version key [__v] at 7. *)
Definition blank_doc : Document :=
  {| dirty := []; version := 0; selected := JUndefined; populated := ∅;
     versionKey := Some "__v"; isSelected := fun _ => true;
     _doc := {[ "__v" := JNum 7 ]} |}.

Definition with_dirty (l : list DirtyData) (this : Document) : Document :=
  {| dirty := l; version := version this; selected := selected this;
     populated := populated this; versionKey := versionKey this;
     isSelected := isSelected this; _doc := _doc this |}.

Definition with_selected (s : jsval) (this : Document) : Document :=
  {| dirty := dirty this; version := version this; selected := s;
     populated := populated this; versionKey := versionKey this;
     isSelected := isSelected this; _doc := _doc this |}.

Definition with_populated (p : gmap string PopulateOptions) (this : Document)
  : Document :=
  {| dirty := dirty this; version := version this; selected := selected this;
     populated := p; versionKey := versionKey this;
     isSelected := isSelected this; _doc := _doc this |}.

Definition no_options : PopulateOptions :=
  {| match_ := None; options := None; select := None |}.

Definition limit_5 : PopulateOptions :=
  {| match_ := None; options := Some {[ "limit" := JNum 5 ]}; select := None |}.

(** The array [tags], replaced as a whole. *)
Definition tags_replaced : DirtyData :=
  {| path := "tags";
     value := DMongooseArray (JStr "tags") {[ "$set" := JObj ∅ ]} [];
     schema := JUndefined |}.

Definition name_changed : DirtyData :=
  {| path := "name"; value := DOther JUndefined JUndefined (JStr "x");
     schema := JUndefined |}.

(** A projection [{comments: {$elemMatch: {...}}}]. *)
Definition elemMatch_comments : jsval :=
  JObj {[ "comments" := JObj {[ "$elemMatch" := JObj ∅ ]} ]}.

(** A document loaded with [{comments: {$elemMatch: ...}}] whose path
    [comments] was also populated, without any limiting option. *)
Definition projected_and_populated : Document :=
  with_populated {[ "comments" := no_options ]}
    (with_selected elemMatch_comments blank_doc).

(** The array [tags] was populated with [limit: 5]. *)
Definition tags_limited : Document :=
  with_populated {[ "tags" := limit_5 ]} blank_doc.

(** The array [tags], populated with [limit: 5], is replaced between two
    other changes. *)
Definition tags_overwritten : Document :=
  with_dirty [name_changed; tags_replaced; name_changed] tags_limited.

(** A document with version key [__v], selected, whose version state asks
    for an increment only. *)
Definition inc_only_doc : Document := with_version VERSION_INC blank_doc.

(** Numeric ids and a result map of documents named by strings. *)
Definition id_ {Doc} (n : Z) : option (idval Doc) := Some (VScalar (SNum n)).
Definition doc_ {Doc} (d : Doc) : option (idval Doc) := Some (VScalar (SDoc d)).
Definition null_ {Doc} : option (idval Doc) := Some (VScalar SNull).
Definition arr_ {Doc} (a : list (option (idval Doc))) : option (idval Doc) :=
  Some (VArr a).

Definition object_toString (d : string) : string := "[object Object]".

(** Two documents, ranked A before B by the sort. *)
Definition docs_AB : gmap string string := <["1" := "DocA"]> (<["2" := "DocB"]> ∅).
Definition order_AB : gmap string nat := <["1" := 0%nat]> (<["2" := 1%nat]> ∅).

(** * Further functions of lib/model.js *)

(** ** Model.prototype.increment *)

(** [this.$__.version = VERSION_ALL; return this] *)
Definition increment (this : Document) : Document :=
  with_version VERSION_ALL this.

(** ** valueFilter, maybeRemoveId, isDoc *)

(** A document returned by a population query: a mongoose document, which
    has [setValue], or the plain object of a lean query. *)
Inductive PopDoc :=
| MongooseDocument (d : Document)
| LeanObject (o : gmap string jsval).

(** [isDoc(doc)]: not [null] or [undefined], not a string, a number or an
    ObjectID; an array is an object whose constructor is [Array]. *)
Definition isDoc (doc : idval PopDoc) : bool :=
  match doc with
  | VArr _ => true
  | VScalar SUndefined => false
  | VScalar SNull => false
  | VScalar (SStr _) => false
  | VScalar (SNum _) => false
  | VScalar (SObjectID _) => false
  | VScalar (SDoc _) => true
  end.

(** [maybeRemoveId(subdoc, assignmentOpts)], with [excludeId] the truthiness
    of [assignmentOpts.excludeId]: [subdoc.setValue('_id', undefined)] on a
    mongoose document, [delete subdoc._id] on anything else. *)
Definition maybeRemoveId (subdoc : idval PopDoc) (excludeId : bool)
  : idval PopDoc :=
  if excludeId
  then
    match subdoc with
    | VScalar (SDoc (MongooseDocument d)) =>
        VScalar (SDoc (MongooseDocument (setValue d "_id" JUndefined)))
    | VScalar (SDoc (LeanObject o)) =>
        VScalar (SDoc (LeanObject (delete "_id" o)))
    | other => other
    end
  else subdoc.

(** The loop of the find logic: the documents of [val] are pushed on [ret]
    in their order. *)
Fixpoint valueFilter_loop (val : list (option (idval PopDoc)))
    (excludeId : bool) (ret : list (option (idval PopDoc)))
  : list (option (idval PopDoc)) :=
  match val with
  | [] => ret
  | e :: tl =>
      let subdoc := read e in
      if isDoc subdoc
      then valueFilter_loop tl excludeId
             (array_push ret (maybeRemoveId subdoc excludeId))
      else valueFilter_loop tl excludeId ret
  end.

(** [valueFilter(val, assignmentOpts)] *)
Definition valueFilter (val : idval PopDoc) (excludeId : bool) : idval PopDoc :=
  match val with
  | VArr a =>
      (* find logic *)
      VArr (valueFilter_loop a excludeId [])
  | _ =>
      (* findOne *)
      if isDoc val then maybeRemoveId val excludeId else VScalar SNull
  end.

(** The identifier a returned document shows: [getValue('_id')] of a
    mongoose document, the property [_id] of a plain object. *)
Definition doc_id (d : PopDoc) : jsval :=
  match d with
  | MongooseDocument d => getValue d "_id"
  | LeanObject o => default JUndefined (o !! "_id")
  end.

(** ** convertTo_id *)

Section ConvertToId.

(** [val instanceof Model] and [val._id] of a document. *)
Context {Doc : Type}.
Variable instanceof_Model : Doc -> bool.
Variable _id : Doc -> scalar Doc.

(** One element of the loop: [if (val[i] instanceof Model) val[i] = val[i]._id];
    a hole stays a hole. *)
Definition convert_element (e : option (idval Doc)) : option (idval Doc) :=
  match e with
  | Some (VScalar (SDoc d)) =>
      if instanceof_Model d then Some (VScalar (_id d)) else e
  | _ => e
  end.

Definition convertTo_id (val : idval Doc) : idval Doc :=
  match val with
  | VScalar (SDoc d) => if instanceof_Model d then VScalar (_id d) else val
  | VArr a => VArr (map convert_element a)
  | _ => val
  end.

(** A value that is a Model instance. *)
Definition is_Model (v : idval Doc) : bool :=
  match v with
  | VScalar (SDoc d) => instanceof_Model d
  | _ => false
  end.

End ConvertToId.

(** ** Readings for the sorted reassembly *)

(** The index that a recursive call which is sorting assigns for an entry
    of its sequence, and the document it assigns there: those of a scalar
    that has a document and a rank; none for a nested sequence, which is
    pushed, for a scalar without a document, which is pushed as well, and
    for a document without a rank, which is assigned to no index. *)
Definition ranked_doc {Doc} (Doc_toString : Doc -> string)
    (resultDocs : gmap string Doc) (resultOrder : gmap string nat)
    (e : option (idval Doc)) : option (nat * Doc) :=
  match read e with
  | VArr _ => None
  | VScalar s =>
      match resultDocs !! String_ Doc_toString s,
            resultOrder !! String_ Doc_toString s with
      | Some d, Some k => Some (k, d)
      | _, _ => None
      end
  end.

(** ** Plain objects *)

(** The names that every plain object inherits from [Object.prototype]. *)
Definition Object_prototype_names : list string :=
  ["constructor"; "__defineGetter__"; "__defineSetter__"; "hasOwnProperty";
   "__lookupGetter__"; "__lookupSetter__"; "isPrototypeOf";
   "propertyIsEnumerable"; "toString"; "valueOf"; "__proto__";
   "toLocaleString"].

Definition inherited (k : string) : bool :=
  existsb (String.eqb k) Object_prototype_names.

(** What [o[k]] finds in an object that was made by [{}] and filled by
    assignments: the entry of [k]; or, for a name without an entry, the
    member of [Object.prototype] of that name (the function [Object] for
    [constructor], the object [Object.prototype] itself for [__proto__], a
    built-in method for the others), which is truthy; or nothing. *)
Inductive Lookup (A : Type) :=
| Own (a : A)
| Member
| Missing.

Arguments Own {A} a.
Arguments Member {A}.
Arguments Missing {A}.

Definition plain_get {A} (o : gmap string A) (k : string) : Lookup A :=
  match o !! k with
  | Some a => Own a
  | None => if inherited k then Member else Missing
  end.

(** ** createModel *)

(** [String(v)], as it names a property in [o[v]]. *)
Definition ToPropertyKey (v : jsval) : string :=
  match v with
  | JUndefined => "undefined"
  | JNull => "null"
  | JBool true => "true"
  | JBool false => "false"
  | JNum n => pretty n
  | JStr s => s
  | JObj _ => "[object Object]"
  end.

(** A model, as createModel looks at it: [model.schema], whose property
    [discriminatorMapping] is read, and [model.discriminators], either
    missing or the object [{}] in which [Model.discriminator] enters models
    by name. *)
Inductive ModelClass :=
| MkModelClass (class_name : string) (class_schema : jsval)
    (class_discriminators : option (gmap string ModelClass)).

Definition class_schema (m : ModelClass) : jsval :=
  match m with MkModelClass _ s _ => s end.

Definition class_discriminators (m : ModelClass)
  : option (gmap string ModelClass) :=
  match m with MkModelClass _ _ d => d end.

(** [model.schema ? model.schema.discriminatorMapping : null] *)
Definition discriminatorMapping_of (model : ModelClass) : jsval :=
  if truthy (class_schema model)
  then get (class_schema model) "discriminatorMapping"
  else JNull.

(** [discriminatorMapping && discriminatorMapping.isRoot
      ? discriminatorMapping.key : null] *)
Definition discriminator_key (model : ModelClass) : jsval :=
  let discriminatorMapping := discriminatorMapping_of model in
  if truthy discriminatorMapping && truthy (get discriminatorMapping "isRoot")
  then get discriminatorMapping "key"
  else JNull.

(** What createModel gives: an instance of a model, made by
    [new model(undefined, undefined, true)]; the empty object that
    [new Object(undefined, undefined, true)] makes; or the TypeError thrown
    by [new] on what is no constructor. *)
Inductive Created :=
| NewInstance (model : ModelClass)
| NewObject
| NotAConstructor.

Section CreateModel.

(** [String(m)] of the member [m] of [Object.prototype] of a name: the
    source text of a built-in function, which the engine chooses. *)
Variable member_toString : string -> string.

(** [doc[key]] when it is truthy, as the name it gives in
    [model.discriminators[doc[key]]]; [doc] is a plain object. *)
Definition discriminator_name (key : jsval) (doc : gmap string jsval)
  : option string :=
  match plain_get doc (ToPropertyKey key) with
  | Own value => if truthy value then Some (ToPropertyKey value) else None
  | Member => Some (member_toString (ToPropertyKey key))
  | Missing => None
  end.

(** [createModel(model, doc)] *)
Definition createModel (model : ModelClass) (doc : gmap string jsval)
  : Created :=
  let key := discriminator_key model in
  if truthy key
  then
    match discriminator_name key doc, class_discriminators model with
    | Some name, Some discriminators =>
        match plain_get discriminators name with
        | Own discriminator => NewInstance discriminator
        | Member =>
            (* of the members of Object.prototype, the function Object
               alone is a constructor *)
            if String.eqb name "constructor" then NewObject
            else NotAConstructor
        | Missing => NewInstance model
        end
    | _, _ => NewInstance model
    end
  else NewInstance model.

End CreateModel.

(** * lib/index.js *)

Module Index.

(** [models] and [modelSchemas] are objects made by [{}] and filled by the
    assignments of [model]: they are read with [plain_get], which finds the
    members of [Object.prototype] as well.  [options] is written under any
    key the caller of [set] gives, [__proto__] among them, and so has its
    prototype modelled. *)

(** A schema, as the registry looks at it: [schema.options] and
    [schema.paths].  Schemas are objects with an identity; the registry holds
    references into [heap]. *)
Record SchemaObj := {
  s_options : gmap string jsval;
  s_paths : gmap string jsval
}.

(** Modelled from the spec: [$__setSchema(schema)] of the document base
    (lib/document.js), which makes the schema given [prototype.schema], so
    that [model.schema] is the schema the model was compiled from.  A model
    is the class that [Model.compile] generates, with its name, the
    reference of its schema and its [base], or a subclass of a model made
    by [__subclass]. *)
Inductive ModelObj :=
| Compiled (modelName : string) (schema : nat) (base : jsval)
| Subclass (parent : ModelObj).

Fixpoint modelName (m : ModelObj) : string :=
  match m with
  | Compiled n _ _ => n
  | Subclass p => modelName p
  end.

(** [model.schema], inherited by a subclass. *)
Fixpoint schema (m : ModelObj) : nat :=
  match m with
  | Compiled _ s _ => s
  | Subclass p => schema p
  end.

(** What [model] throws: one of the two errors of [mongoose.Error], or the
    TypeError of the language. *)
Inductive Exception :=
| MissingSchemaError (name : string)
| OverwriteModelError (name : string)
| TypeError.

(** What [model] returns: a model; or, for a name that every object
    inherits, the member of [Object.prototype] of that name, which
    [this.models[name]] finds. *)
Inductive Returned :=
| AModel (m : ModelObj)
| ObjectMember (name : string).

(** The prototype of [options]: [Object.prototype], or what an assignment
    to [__proto__] put in its place, a plain object or [null]. *)
Inductive Prototype :=
| ObjectPrototype
| ProtoObject (p : gmap string jsval)
| ProtoNull.

(** A plain object of options: its own entries and its prototype. *)
Record Options := {
  own : gmap string jsval;
  proto : Prototype
}.

(** What a read of a property gives: a value, or the member of
    [Object.prototype] of a name ([Object.prototype] itself for
    [__proto__]). *)
Inductive Property :=
| Value (v : jsval)
| MemberOf (name : string).

(** [o[k]] *)
Definition options_get (o : Options) (k : string) : Property :=
  match own o !! k with
  | Some v => Value v
  | None =>
      match proto o with
      | ObjectPrototype => if inherited k then MemberOf k else Value JUndefined
      | ProtoObject p =>
          match p !! k with
          | Some v => Value v
          | None =>
              (* the getter of __proto__ gives the prototype of [o] *)
              if String.eqb k "__proto__" then Value (JObj p)
              else if inherited k then MemberOf k
              else Value JUndefined
          end
      | ProtoNull => Value JUndefined
      end
  end.

(** An assignment to [__proto__] reaches the setter of [Object.prototype]
    when no entry of that name, of the object or of its prototype, comes
    first. *)
Definition setter_reached (o : Options) : bool :=
  match own o !! "__proto__", proto o with
  | Some _, _ => false
  | None, ObjectPrototype => true
  | None, ProtoObject p => bool_decide (p !! "__proto__" = None)
  | None, ProtoNull => false
  end.

(** [o[k] = v].  The setter of [__proto__] replaces the prototype by an
    object or by [null] and ignores any other value; every other
    assignment makes or changes an entry of [o].  Values are data: none of
    them is the object [o] itself. *)
Definition options_put (o : Options) (k : string) (v : jsval) : Options :=
  if String.eqb k "__proto__" && setter_reached o
  then
    match v with
    | JObj p => {| own := own o; proto := ProtoObject p |}
    | JNull => {| own := own o; proto := ProtoNull |}
    | _ => o
    end
  else {| own := <[k := v]> (own o); proto := proto o |}.

(** An instance of [Mongoose]: its fields [plugins] (a function, by its
    number, and its options), [models], [modelSchemas], [options] and
    [connection]; the schemas it refers to; and the models on which [init]
    was called, latest first. *)
Record Mongoose := {
  plugins : list (nat * jsval);
  models : gmap string ModelObj;
  modelSchemas : gmap string nat;
  options : Options;
  connection : jsval;
  heap : gmap nat SchemaObj;
  inits : list ModelObj
}.

(** [new Mongoose] *)
Definition Mongoose_new : Mongoose :=
  {| plugins := []; models := ∅; modelSchemas := ∅;
     options := {| own := {[ "pluralization" := JBool true ]};
                   proto := ObjectPrototype |};
     connection := JUndefined; heap := ∅; inits := [] |}.

Definition with_options (o : Options) (this : Mongoose) : Mongoose :=
  {| plugins := plugins this; models := models this;
     modelSchemas := modelSchemas this; options := o;
     connection := connection this; heap := heap this; inits := inits this |}.

Definition with_plugins (p : list (nat * jsval)) (this : Mongoose) : Mongoose :=
  {| plugins := p; models := models this;
     modelSchemas := modelSchemas this; options := options this;
     connection := connection this; heap := heap this; inits := inits this |}.

Definition with_models (m : gmap string ModelObj) (this : Mongoose) : Mongoose :=
  {| plugins := plugins this; models := m;
     modelSchemas := modelSchemas this; options := options this;
     connection := connection this; heap := heap this; inits := inits this |}.

Definition with_modelSchemas (m : gmap string nat) (this : Mongoose) : Mongoose :=
  {| plugins := plugins this; models := models this;
     modelSchemas := m; options := options this;
     connection := connection this; heap := heap this; inits := inits this |}.

Definition with_heap (h : gmap nat SchemaObj) (this : Mongoose) : Mongoose :=
  {| plugins := plugins this; models := models this;
     modelSchemas := modelSchemas this; options := options this;
     connection := connection this; heap := h; inits := inits this |}.

Definition with_inits (l : list ModelObj) (this : Mongoose) : Mongoose :=
  {| plugins := plugins this; models := models this;
     modelSchemas := modelSchemas this; options := options this;
     connection := connection this; heap := heap this; inits := l |}.

(** What [set] and [get] return: the property read, or [this]. *)
Inductive SetResult :=
| Returns (p : Property)
| ReturnThis.

(** [Mongoose.prototype.set], which is [Mongoose.prototype.get] as well:
    with one argument the option is read, with any other number of
    arguments it is written. *)
Definition set (this : Mongoose) (arguments : list jsval)
  : Mongoose * SetResult :=
  let key := ToPropertyKey (default JUndefined (arguments !! 0%nat)) in
  let value := default JUndefined (arguments !! 1%nat) in
  if (length arguments =? 1)%nat
  then (this, Returns (options_get (options this) key))
  else (with_options (options_put (options this) key value) this, ReturnThis).

Definition get_ := set.

(** [Mongoose.prototype.plugin] *)
Definition plugin (this : Mongoose) (fn : nat) (opts : jsval) : Mongoose :=
  with_plugins (plugins this ++ [(fn, opts)])%list this.

(** [Mongoose.prototype.modelNames], in some order. *)
Definition modelNames (this : Mongoose) : list string :=
  (map_to_list (models this)).*1.

(** [false !== schema.options.versionKey] *)
Definition versioningEnabled (s : SchemaObj) : bool :=
  match s_options s !! "versionKey" with
  | Some (JBool false) => false
  | _ => true
  end.

(** The part of [Model.compile(name, schema, base)] that touches the
    schema: the version key is added as a path of type Number when
    versioning is enabled and the schema has no such path.  Modelled from
    the spec: [schema.add] of one top-level path, an entry of [schema.paths]
    (lib/schema.js). *)
Definition compile_schema (s : SchemaObj) : SchemaObj :=
  let versionKey :=
    ToPropertyKey (default JUndefined (s_options s !! "versionKey")) in
  if versioningEnabled s
     && negb (truthy (default JUndefined (s_paths s !! versionKey)))
  then {| s_options := s_options s;
          s_paths := <[versionKey := JStr "Number"]> (s_paths s) |}
  else s.

Section Registry.

(** [new Schema(definition)], [schema.plugin(fn, opts)], the table
    [SchemaDefaults] and [utils.toCollectionName] are defined elsewhere in
    the library. *)
Variable Schema_new : gmap string jsval -> SchemaObj.
Variable Schema_plugin : nat -> jsval -> SchemaObj -> SchemaObj.
Variable SchemaDefaults : gmap string nat.
Variable toCollectionName : string -> gmap string jsval -> string.

(** The second argument of [model]: missing (or [false]), a collection
    name, a plain object defining a schema, or a schema. *)
Inductive SchemaArg :=
| NoSchema
| SchemaString (s : string)
| SchemaDefinition (definition : gmap string jsval)
| SchemaInstance (ref : nat).

(** The third argument: missing, a collection name, or a boolean that
    stands for [skipInit]. *)
Inductive CollectionArg :=
| NoCollection
| CollectionName (s : string)
| CollectionBool (b : bool).

(** The fourth argument: missing, a boolean, or the options that
    [connection.model()] hands over. *)
Inductive SkipInitArg :=
| NoSkipInit
| SkipInitBool (b : bool)
| SkipInitOptions (o : gmap string jsval).

(** [this._applyPlugins(schema)] *)
Definition _applyPlugins (this : Mongoose) (s : SchemaObj) : SchemaObj :=
  fold_left (fun s p => Schema_plugin p.1 p.2 s) (plugins this) s.

(** [Model.compile(name, schema, collection, connection, this)]: the schema
    after the call and the model.  [Model.compile] has the parameters
    [(name, schema, base)], so that the collection is the [base] of the
    model. *)
Definition compile (this : Mongoose) (name : string) (ref : nat)
    (collection : jsval) : Mongoose * ModelObj :=
  (with_heap (alter compile_schema ref (heap this)) this,
   Compiled name ref collection).

(** [if (!('pluralization' in schema.options))
      schema.options.pluralization = this.options.pluralization] *)
Definition inherit_pluralization (this : Mongoose) (s : SchemaObj) : SchemaObj :=
  match s_options s !! "pluralization" with
  | Some _ => s
  | None =>
      {| s_options :=
           <["pluralization" :=
               match options_get (options this) "pluralization" with
               | Value v => v
               | MemberOf _ => JUndefined
               end]>
             (s_options s);
         s_paths := s_paths s |}
  end.

(** [schema.get('collection') || format(name, schema.options)].  Modelled
    from the spec: [schema.get(key)], which reads [schema.options[key]]
    (lib/schema.js). *)
Definition default_collection (name : string) (s : SchemaObj) : jsval :=
  let given := default JUndefined (s_options s !! "collection") in
  if truthy given then given else JStr (toCollectionName name (s_options s)).

(** The options of the schema at a reference. *)
Definition schema_at (this : Mongoose) (ref : nat) : SchemaObj :=
  default {| s_options := ∅; s_paths := ∅ |} (heap this !! ref).

(** The end of [model], from "ensure a schema exists" on: the schema is
    found, completed and compiled, and the model is initialised and cached
    as the arguments ask.  It is reached with [cache] only for a name that
    [this.models[name]] does not find, which is then no inherited name. *)
Definition define (this : Mongoose) (name : string) (schema : option nat)
    (collection : jsval) (skipInit cache : bool)
  : Mongoose * (Exception + Returned) :=
  let schema :=
    match schema with
    | Some ref => Own ref
    | None => plain_get (modelSchemas this) name
    end in
  match schema with
  | Missing => (this, inl (MissingSchemaError name))
  | Member =>
      (* 'pluralization' in schema.options, and a member of Object.prototype
         has no [options] *)
      (this, inl TypeError)
  | Own ref =>
      let this :=
        with_heap (alter (inherit_pluralization this) ref (heap this)) this in
      let collection :=
        if truthy collection then collection
        else default_collection name (schema_at this ref) in
      let '(this, model) := compile this name ref collection in
      let this :=
        if skipInit then this else with_inits (model :: inits this) this in
      if cache
      then (with_models (<[name := model]> (models this)) this,
            inr (AModel model))
      else (this, inr (AModel model))
  end.

(** The normalisation of the arguments of [model]. *)
Definition collection_of (schema : SchemaArg) (collection : CollectionArg)
  : jsval :=
  match schema, collection with
  | SchemaString s, _ => JStr s
  | _, CollectionName s => JStr s
  | _, _ => JNull
  end.

Definition skipInit_of (schema : SchemaArg) (collection : CollectionArg)
    (skipInit : SkipInitArg) : SkipInitArg :=
  match schema, collection with
  | SchemaString _, _ => skipInit
  | _, CollectionBool b => SkipInitBool b
  | _, _ => skipInit
  end.

(** [Mongoose.prototype.model]: the instance after the call, and the model
    returned or the error thrown. *)
Definition model (this : Mongoose) (name : string) (schema : SchemaArg)
    (collection : CollectionArg) (skipInit : SkipInitArg)
  : Mongoose * (Exception + Returned) :=
  (* a string in the place of the schema is the collection; a boolean in
     the place of the collection is skipInit *)
  let skipInit := skipInit_of schema collection skipInit in
  let collection := collection_of schema collection in
  (* a plain object becomes a new Schema *)
  let '(this, schema) :=
    match schema with
    | NoSchema | SchemaString _ => (this, None)
    | SchemaDefinition definition =>
        let ref := fresh (dom (heap this)) in
        (with_heap (<[ref := Schema_new definition]> (heap this)) this, Some ref)
    | SchemaInstance ref => (this, Some ref)
    end in
  (* handle internal options from connection.model() *)
  let options_ : gmap string jsval :=
    match skipInit with SkipInitOptions o => o | _ => ∅ end in
  let skipInit :=
    match skipInit with
    | SkipInitOptions _ => true
    | SkipInitBool b => b
    | NoSkipInit => false
    end in
  let cache :=
    (* false !== options.cache *)
    match options_ !! "cache" with Some (JBool false) => false | _ => true end in
  (* look up schema for the collection *)
  let looked_up :=
    match plain_get (modelSchemas this) name with
    | Own _ | Member => inr (this, schema)
    | Missing =>
        let schema :=
          match schema with
          | None =>
              (* name in SchemaDefaults, for a name that is not inherited *)
              SchemaDefaults !! name
          | Some _ => schema
          end in
        match schema with
        | Some ref =>
            (* cache it so we only apply plugins once *)
            inr (with_heap (alter (_applyPlugins this) ref (heap this))
                   (with_modelSchemas (<[name := ref]> (modelSchemas this)) this),
                 schema)
        | None => inl (MissingSchemaError name)
        end
    end in
  match looked_up with
  | inl e => (this, inl e)
  | inr (this, schema) =>
      match (if cache then plain_get (models this) name else Missing) with
      | Own cached =>
          if match schema with
             | Some ref => negb (ref =? Index.schema cached)%nat
             | None => false
             end
          then (this, inl (OverwriteModelError name))
          else if truthy collection
          then
            (* subclass current model with alternate collection;
               do not cache the sub model *)
            (with_inits (Subclass cached :: inits this) this,
             inr (AModel (Subclass cached)))
          else (this, inr (AModel cached))
      | Member =>
          (* this.models[name] is a member of Object.prototype, whose
             [schema] is undefined and differs from any schema given; it
             has no [__subclass], nor a [prototype] with a schema *)
          if match schema with Some _ => true | None => false end
          then (this, inl (OverwriteModelError name))
          else if truthy collection
          then (this, inl TypeError)
          else (this, inr (ObjectMember name))
      | Missing => define this name schema collection skipInit cache
      end
  end.

End Registry.

End Index.

(** ** A sample registry *)

(** Stand-ins for the parts of the library that the registry calls: a new
    schema has the version key [__v] and the paths of its definition, a
    plugin adds a path named by its options, a collection is named by the
    model name followed by [s], and there are no schema defaults. *)
Definition sample_Schema_new (definition : gmap string jsval)
  : Index.SchemaObj :=
  {| Index.s_options := {[ "versionKey" := JStr "__v" ]};
     Index.s_paths := definition |}.

Definition sample_Schema_plugin (fn : nat) (opts : jsval) (s : Index.SchemaObj)
  : Index.SchemaObj :=
  {| Index.s_options := Index.s_options s;
     Index.s_paths := <[ToPropertyKey opts := JStr "plugin"]> (Index.s_paths s) |}.

Definition sample_toCollectionName (name : string)
    (options : gmap string jsval) : string :=
  name ++ "s".

Definition sample_model :=
  Index.model sample_Schema_new sample_Schema_plugin ∅ sample_toCollectionName.

(** A new instance, with two schemas at hand. *)
Definition mongoose_0 : Index.Mongoose :=
  Index.with_heap
    {[ 0%nat := sample_Schema_new {[ "name" := JStr "String" ]};
       1%nat := sample_Schema_new ∅ ]}
    Index.Mongoose_new.

(** The instance after [model('Cat', schema)] with the first schema. *)
Definition mongoose_Cat : Index.Mongoose :=
  (sample_model mongoose_0 "Cat" (Index.SchemaInstance 0) Index.NoCollection
     Index.NoSkipInit).1.

Definition Cat : Index.ModelObj := Index.Compiled "Cat" 0 (JStr "Cats").

(** * Properties *)

(** ** Version states *)

Example VERSION_ALL_is_3 : VERSION_ALL = 3.
Proof. reflexivity. Qed.

Example bits_of_version_states :
  ~ inc_bit 0 /\ ~ inc_bit VERSION_WHERE /\ inc_bit VERSION_INC
  /\ inc_bit VERSION_ALL /\ where_bit VERSION_ALL /\ ~ where_bit VERSION_INC.
Proof. unfold inc_bit, where_bit. vm_compute. by repeat split. Qed.

(** The low bits of a version state survive [ToInt32]. *)
Lemma ToInt32_small (n : Z) : 0 <= n < 2 ^ 31 -> ToInt32 n = n.
Proof.
  intros H. unfold ToInt32.
  rewrite Z.mod_small by lia.
  destruct (Z.ltb_spec n (2 ^ 31)); [reflexivity | lia].
Qed.

(** ** The regular expression *)

Lemma append_cons (a : ascii) (p s : string) :
  String a p ++ s = String a (p ++ s).
Proof. reflexivity. Qed.

Lemma prefix_spec (p s : string) :
  String.prefix p s = true <-> exists post, s = p ++ post.
Proof.
  revert s. induction p as [|a p IH]; intros s.
  - split; [intros _; by exists s | by destruct s].
  - destruct s as [|b s].
    + split; [discriminate | intros [post H]; discriminate H].
    + change (String.prefix (String a p) (String b s))
        with (if ascii_dec a b then String.prefix p s else false).
      destruct (ascii_dec a b) as [->|Hne].
      * rewrite IH. split; intros [post H]; exists post.
        -- rewrite append_cons. by f_equal.
        -- rewrite append_cons in H. by injection H.
      * split; [discriminate | intros [post H]].
        rewrite append_cons in H. congruence.
Qed.

Lemma match_here_occurs (s : string) :
  match_here s = true -> exists pre post, s = pre ++ "-_id" ++ post.
Proof.
  destruct s as [|c r]; [discriminate |].
  unfold match_here. intros H.
  apply orb_true_iff in H as [H | H].
  - apply andb_true_iff in H as [_ H].
    apply prefix_spec in H as [post ->].
    by exists (String c EmptyString), post.
  - apply prefix_spec in H as [post H].
    exists EmptyString, post. exact H.
Qed.

Lemma regex_test_cons (c : ascii) (r : string) :
  regex_test (String c r) = match_here (String c r) || regex_test r.
Proof. reflexivity. Qed.

(** The pattern has no anchors and its blanks are optional: it matches
    exactly the strings in which [-_id] occurs. *)
Lemma regex_test_spec (s : string) :
  regex_test s = true <-> exists pre post, s = pre ++ "-_id" ++ post.
Proof.
  split.
  - induction s as [|c r IH].
    + discriminate.
    + rewrite regex_test_cons. intros H.
      apply orb_true_iff in H as [H | H].
      * by apply match_here_occurs.
      * destruct (IH H) as (pre & post & ->).
        by exists (String c pre), post.
  - intros (pre & post & ->).
    induction pre as [|c pre IH].
    + change ("" ++ "-_id" ++ post) with (String "-" ("_id" ++ post)).
      rewrite regex_test_cons. unfold match_here.
      assert (String.prefix "-_id" (String "-" ("_id" ++ post)) = true) as ->
        by (apply prefix_spec; by exists post).
      by rewrite orb_true_r.
    + rewrite append_cons, regex_test_cons, IH. apply orb_true_r.
Qed.

Lemma deselected_id_spec (sel : Select) :
  select_truthy sel && deselected_id sel = true <-> excludes_id sel.
Proof.
  destruct sel as [s | o]; unfold select_truthy, deselected_id, excludes_id.
  - rewrite andb_true_iff, regex_test_spec. split; [by intros [_ H] |].
    intros H. split; [| done].
    destruct H as (pre & post & ->). by destruct pre.
  - rewrite andb_true_l.
    destruct (o !! "_id") as [[| | |n| |]|]; try (split; [discriminate | congruence]).
    destruct n; split; (done || discriminate || congruence).
Qed.

(** ** checkDivergentArray *)

Lemma projected_elemMatch_selected (doc : Document) (path : string) :
  projected_elemMatch doc path ->
  truthy (selected doc) = true
  /\ truthy (get (selected doc) (top_segment path)) = true.
Proof.
  unfold projected_elemMatch. intros H.
  destruct (selected doc) as [| | | | |sel]; try discriminate H.
  split; [reflexivity |].
  destruct (get (JObj sel) (top_segment path)); try discriminate H.
  reflexivity.
Qed.

(** C4, as stated, fails: the projection is not looked at for a path that
    was populated; the write to [comments] below is not flagged. *)
Lemma elemMatch_ignored_when_populated :
  checkDivergentArray projected_and_populated "comments"
    (DMongooseArray (JStr "comments") ∅ []) = None
  /\ ~ stated_elemMatch_always_flags projected_and_populated "comments"
        (DMongooseArray (JStr "comments") ∅ []).
Proof.
  split; [reflexivity |].
  intros H. specialize (H eq_refl). discriminate H.
Qed.

(** C4, amended: for every document loaded with an [$elemMatch] projection
    on a path's top-level segment, any write to that path is flagged at the
    top-level segment, provided the path was not populated. *)
Theorem elemMatch_flags_top_segment (doc : Document) (path : string)
    (array : DirtyValue) :
  populated doc !! path = None ->
  projected_elemMatch doc path ->
  checkDivergentArray doc path array = Some (top_segment path).
Proof.
  intros Hpop Hsel. unfold checkDivergentArray. rewrite Hpop.
  destruct (projected_elemMatch_selected _ _ Hsel) as [-> ->].
  unfold projected_elemMatch in Hsel. by rewrite Hsel.
Qed.

Lemma elemMatch_flags_top_segment_witness :
  checkDivergentArray (with_selected elemMatch_comments blank_doc)
    "comments.0.text" (DOther JUndefined JUndefined (JStr "edited"))
  = Some "comments".
Proof.
  exact (elemMatch_flags_top_segment
           (with_selected elemMatch_comments blank_doc) "comments.0.text"
           (DOther JUndefined JUndefined (JStr "edited"))
           eq_refl eq_refl).
Defined.

Lemma skip_truthy_positive (o : gmap string jsval) :
  (forall v, o !! "skip" = Some v -> exists n, v = JNum n /\ 0 <= n) ->
  truthy (default JUndefined (o !! "skip")) = true
  <-> exists n, o !! "skip" = Some (JNum n) /\ 0 < n.
Proof.
  intros Hwf. destruct (o !! "skip") as [v|] eqn:E; simpl.
  - destruct (Hwf v eq_refl) as (n & -> & Hn). simpl.
    rewrite negb_true_iff, Z.eqb_neq. split.
    + intros Hne. exists n. split; [done | lia].
    + intros (m & [= <-] & Hm). lia.
  - split; [done | by intros (n & ? & _)].
Qed.

Lemma check_spec (pop : PopulateOptions) :
  (forall o v, options pop = Some o -> o !! "skip" = Some v ->
     exists n, v = JNum n /\ 0 <= n) ->
  check pop = true <-> limited_population pop.
Proof.
  intros Hwf. unfold check, limited_population.
  rewrite !orb_true_iff, bool_decide_eq_true.
  assert ((match options pop with
           | Some o => hasOwnProperty o "limit" | None => false end) = true
          <-> exists o, options pop = Some o /\ is_Some (o !! "limit")) as ->.
  { destruct (options pop) as [o|].
    - unfold hasOwnProperty. rewrite bool_decide_eq_true. naive_solver.
    - naive_solver. }
  assert ((match options pop with
           | Some o => truthy (default JUndefined (o !! "skip"))
           | None => false end) = true
          <-> exists o n, options pop = Some o /\ o !! "skip" = Some (JNum n)
                          /\ 0 < n) as ->.
  { destruct (options pop) as [o|].
    - rewrite (skip_truthy_positive o) by (intros v; by apply Hwf).
      naive_solver.
    - naive_solver. }
  assert ((match select pop with
           | Some sel => select_truthy sel && deselected_id sel
           | None => false end) = true
          <-> exists sel, select pop = Some sel /\ excludes_id sel) as ->.
  { destruct (select pop) as [sel|].
    - rewrite deselected_id_spec. naive_solver.
    - naive_solver. }
  tauto.
Qed.

(** C7: for a populated path whose new value is a tracked array with no
    queued atomics, or with atomics that include a full replace or a pop,
    checkDivergentArray flags the path exactly when the population options
    included a match filter, a limit key (also [limit: 0]), a positive skip
    ([skip: 0] does not trigger) or a projection deselecting the
    identifier.  A skip, where given, is a number of documents. *)
Theorem partial_population_trigger (doc : Document) (path : string)
    (pop : PopulateOptions) (p : jsval) (atomics : gmap string jsval)
    (items : list jsval) :
  populated doc !! path = Some pop ->
  destructive_atomics atomics ->
  (forall o v, options pop = Some o -> o !! "skip" = Some v ->
     exists n, v = JNum n /\ 0 <= n) ->
  checkDivergentArray doc path (DMongooseArray p atomics items) = Some path
  <-> limited_population pop.
Proof.
  intros Hpop Hat Hwf. unfold checkDivergentArray. rewrite Hpop.
  rewrite <- (check_spec pop Hwf).
  assert ((size atomics =? 0)%nat || truthy (get (JObj atomics) "$set")
          || truthy (get (JObj atomics) "$pop") = true) as ->.
  { rewrite !orb_true_iff, Nat.eqb_eq. unfold destructive_atomics in Hat. tauto. }
  rewrite andb_true_r. destruct (check pop); naive_solver.
Qed.

Lemma partial_population_trigger_witness :
  checkDivergentArray tags_limited "tags" (value tags_replaced) = Some "tags".
Proof.
  apply (partial_population_trigger tags_limited "tags" limit_5
           (JStr "tags") {[ "$set" := JObj ∅ ]} []).
  - reflexivity.
  - right; left; reflexivity.
  - intros o v [= <-] Hv. vm_compute in Hv. discriminate Hv.
  - right; left. exists {[ "limit" := JNum 5 ]}. split; [reflexivity |].
    exists (JNum 5). reflexivity.
Defined.

(** ** Model.prototype.$__version *)

(** C3, as stated, fails: on an insert the update object gets the version
    key itself, and no [$set] entry. *)
Lemma insert_has_no_set_entry :
  (Model__version blank_doc WhereTrue ∅).2 = {[ "__v" := JNum 0 ]}
  /\ ~ stated_insert_sets_set_entry blank_doc ∅.
Proof.
  split; [reflexivity |].
  intros H. vm_compute in H. destruct H as [H _]. discriminate H.
Qed.

(** C3, amended: called with the insert sentinel as the where argument, and
    with a version key configured, the version step sets the version key of
    the update object itself to 0 (not an entry under [$set]; the other keys
    are left alone), stores 0 as the document's version value, and does not
    touch where. *)
Theorem insert_sets_version_key (this : Document) (delta : gmap string jsval) :
  key_truthy (versionKey this) = true ->
  let key := key_name (versionKey this) in
  let '(this', where', delta') := Model__version this WhereTrue delta in
  delta' !! key = Some (JNum 0)
  /\ (forall k, k <> key -> delta' !! k = delta !! k)
  /\ getValue this' key = JNum 0
  /\ (forall k, k <> key -> getValue this' k = getValue this k)
  /\ where' = WhereTrue.
Proof.
  intros Hkey. unfold Model__version. rewrite Hkey. simpl.
  unfold getValue, setValue. simpl.
  repeat split.
  - apply lookup_insert_eq.
  - intros k Hk. by apply lookup_insert_ne.
  - by rewrite lookup_insert_eq.
  - intros k Hk. by rewrite lookup_insert_ne.
Qed.

Lemma insert_sets_version_key_witness :
  let '(this', where', delta') :=
    Model__version blank_doc WhereTrue {[ "name" := JStr "x" ]} in
  delta' !! "__v" = Some (JNum 0)
  /\ (forall k, k <> "__v" -> delta' !! k = ({[ "name" := JStr "x" ]} : gmap string jsval) !! k)
  /\ getValue this' "__v" = JNum 0
  /\ (forall k, k <> "__v" -> getValue this' k = getValue blank_doc k)
  /\ where' = WhereTrue.
Proof.
  exact (insert_sets_version_key blank_doc {[ "name" := JStr "x" ]} eq_refl).
Defined.


Lemma version_update_inc (this : Document) (w delta : gmap string jsval) :
  inc_bit (version this) ->
  isSelected this (key_name (versionKey this)) = true ->
  (version_update this w delta).2
  = <["$inc" := put (if truthy (get (JObj delta) "$inc")
                     then get (JObj delta) "$inc" else JObj ∅)
                  (key_name (versionKey this)) (JNum 1)]> delta.
Proof.
  intros Hinc Hsel. unfold version_update. rewrite Hsel.
  unfold inc_bit in Hinc. rewrite Hinc, Z.eqb_refl. simpl.
  destruct (truthy (default JUndefined (delta !! "$inc"))) eqn:E; [done |].
  rewrite lookup_insert_eq. simpl. by rewrite insert_insert_eq.
Qed.



(** ** Model.prototype.$__delta *)

Lemma divergence_Some (this : Document) (data : DirtyData) (m : string) :
  checkDivergentArray this (path data) (value data) = Some m ->
  m <> "" ->
  divergence this data = Some m.
Proof.
  intros Hm Hne. unfold divergence. rewrite Hm. simpl.
  destruct (String.eqb_spec m ""); [done | reflexivity].
Qed.


(** Whatever the value, the classification ends in a call that throws. *)
Lemma add_operand_throws (this : Document) (c : Clauses) (data : DirtyData) :
  exists name,
    add_operand this c data = Throw name
    /\ (name = "operand" \/ name = "handleAtomics").
Proof.
  unfold add_operand.
  destruct (value data) as [| |p a items|p a bytes|p a raw];
    try (exists "operand"; split; [reflexivity | by left]);
    destruct (truthy _ && truthy _);
    try (exists "handleAtomics"; split; [reflexivity | by right]);
    destruct (truthy _ && _);
    exists "operand"; split; (reflexivity || by left).
Qed.

(** A turn for a flagged record adds its match to [divergent] and leaves
    the clauses. *)
Lemma delta_step_flagged (this : Document) (c : Clauses) (div : list string)
    (data : DirtyData) (m : string) :
  divergence this data = Some m ->
  delta_step this (c, div) data = Normal (c, (div ++ [m])%list).
Proof.
  unfold divergence, delta_step.
  destruct (checkDivergentArray this (path data) (value data)) as [m'|];
    [| discriminate].
  destruct (match_truthy (Some m')); [| discriminate].
  by intros [= ->].
Qed.

(** A turn for a record that is not flagged does nothing once [divergent]
    is not empty, and throws while it is empty. *)
Lemma delta_step_skipped (this : Document) (c : Clauses) (div : list string)
    (data : DirtyData) :
  divergence this data = None ->
  div <> [] ->
  delta_step this (c, div) data = Normal (c, div).
Proof.
  unfold divergence, delta_step. intros Hd Hne.
  assert (negb (length div =? 0)%nat = true) as -> by by destruct div.
  destruct (checkDivergentArray this (path data) (value data)) as [m'|];
    [| reflexivity].
  by destruct (match_truthy (Some m')).
Qed.

Lemma delta_step_throws (this : Document) (c : Clauses) (data : DirtyData) :
  divergence this data = None ->
  exists name,
    delta_step this (c, []) data = Throw name
    /\ (name = "operand" \/ name = "handleAtomics").
Proof.
  unfold divergence, delta_step. intros Hd.
  destruct (add_operand_throws this c data) as (name & Hn & Hname).
  exists name. split; [| exact Hname].
  cbn [length Nat.eqb negb]. rewrite Hn. cbn [completion_map].
  destruct (checkDivergentArray this (path data) (value data)) as [m'|];
    [| reflexivity].
  by destruct (match_truthy (Some m')).
Qed.

(** Once [divergent] is not empty the loop runs to its end: it collects the
    matches of the flagged records, in their order, and leaves the
    clauses. *)
Lemma delta_loop_diverged (this : Document) (l : list DirtyData)
    (c : Clauses) (div : list string) :
  div <> [] ->
  delta_loop this l (c, div)
  = Normal (c, (div ++ omap (divergence this) l)%list).
Proof.
  revert div. induction l as [|data l IH]; intros div Hne.
  - simpl. by rewrite app_nil_r.
  - cbn [delta_loop omap list_omap].
    destruct (divergence this data) as [m|] eqn:E.
    + rewrite (delta_step_flagged this c div data m E).
      rewrite IH by (by destruct div). by rewrite <- app_assoc.
    + rewrite (delta_step_skipped this c div data E Hne). by apply IH.
Qed.

(** C2: the claim does not hold of the code.  In [tags_overwritten] the
    record of [tags] is flagged as a divergent array, but the record of
    [name], which is not, comes first: [$__delta] calls [operand] for it, a
    name that lib/model.js does not bind, and the call throws a
    ReferenceError where the claim has the DivergentArrayError returned. *)
Theorem divergent_after_change_throws :
  dirty tags_overwritten = [name_changed; tags_replaced; name_changed]
  /\ divergence tags_overwritten tags_replaced = Some "tags"
  /\ (Model__delta tags_overwritten).2 = ReferenceError "operand".
Proof. repeat split. Qed.



(** ** assignRawDocsToIdStructure *)

Lemma array_set_end {A} (a : list (option A)) (v : A) :
  array_set a (length a) v = (a ++ [Some v])%list.
Proof.
  unfold array_set. destruct (decide (length a < length a)%nat); [lia |].
  by rewrite Nat.sub_diag.
Qed.

Section ReassemblyProperties.

Context {Doc : Type} (Doc_toString : Doc -> string).
Variable resultDocs : gmap string Doc.
Variable resultOrder : gmap string nat.

Local Abbreviation assign := (assignRawDocsToIdStructure Doc_toString resultDocs resultOrder).
Local Abbreviation nested := (assign_nested Doc_toString resultDocs resultOrder).
Local Abbreviation loop := (assign_loop Doc_toString resultDocs resultOrder).
Local Abbreviation findOne := (findOne_entry Doc_toString resultDocs).
Local Abbreviation find := (find_entry Doc_toString resultDocs).

(** Copying an array without holes gives the same array. *)
Lemma forEach_assign_dense (l acc : list (option (idval Doc))) :
  Forall is_Some l ->
  forEach_assign l (length acc) acc = (acc ++ l)%list.
Proof.
  intros Hl. revert acc. induction Hl as [|e l [v ->] _ IH]; intros acc.
  - simpl. by rewrite app_nil_r.
  - simpl. rewrite array_set_end.
    replace (S (length acc)) with (length (acc ++ [Some v])%list)
      by (rewrite length_app; simpl; lia).
    rewrite IH. by rewrite <- app_assoc.
Qed.

Lemma place_findOne (sorting : bool) (s : scalar Doc)
    (acc : list (option (idval Doc))) :
  place Doc_toString resultDocs resultOrder sorting false (length acc) s acc
  = (acc ++ [Some (findOne sorting s)])%list.
Proof.
  unfold place, findOne_entry.
  destruct (is_null s && negb sorting) eqn:E.
  - apply andb_true_iff in E as [E _]. by destruct s.
  - by rewrite array_set_end.
Qed.

Lemma place_find (i : nat) (s : scalar Doc) (acc : list (option (idval Doc))) :
  place Doc_toString resultDocs resultOrder false true i s acc
  = (acc ++ [Some (find s)])%list.
Proof.
  unfold place, find_entry. rewrite andb_true_r.
  destruct (is_null s) eqn:E.
  - by destruct s.
  - by destruct (resultDocs !! String_ Doc_toString s).
Qed.

(** When every turn appends one element, the loop is a map. *)
Lemma assign_loop_map (rec : idval Doc -> idval Doc) (sorting recursed : bool)
    (f : scalar Doc -> idval Doc) :
  (forall s acc,
     place Doc_toString resultDocs resultOrder sorting recursed (length acc) s acc
     = (acc ++ [Some (f s)])%list) ->
  forall l i acc,
    i = length acc ->
    loop rec sorting recursed l i acc
    = (acc ++ map (fun e => Some (entry_of rec f e)) l)%list.
Proof.
  intros Hplace l. induction l as [|e l IH]; intros i acc ->.
  - simpl. by rewrite app_nil_r.
  - simpl.
    assert (forall x, S (length acc) = length (acc ++ [x])%list) as Hlen
      by (intros x; rewrite length_app; simpl; lia).
    destruct e as [[s | a] |]; simpl.
    + rewrite Hplace, (IH _ _ (Hlen (Some (f s)))). by rewrite <- app_assoc.
    + unfold array_push. rewrite (IH _ _ (Hlen (Some (rec (VArr a))))).
      by rewrite <- app_assoc.
    + rewrite Hplace, (IH _ _ (Hlen (Some (f SUndefined)))).
      by rewrite <- app_assoc.
Qed.

Lemma map_Some_dense {A B} (g : A -> B) (l : list A) :
  Forall is_Some (map (fun e => Some (g e)) l).
Proof. induction l; constructor; eauto. Qed.

(** A top-level call rebuilds the structure position by position. *)
Lemma assign_findOne (sort : bool) (rawIds : list (option (idval Doc))) :
  assign sort rawIds false
  = map (fun e => Some (entry_of (nested sort)
                          (findOne (sorting_of sort rawIds)) e)) rawIds.
Proof.
  unfold assignRawDocsToIdStructure.
  rewrite (assign_loop_map (nested sort) (sorting_of sort rawIds) false
             (findOne (sorting_of sort rawIds))
             (place_findOne _) rawIds 0%nat [] eq_refl).
  apply (forEach_assign_dense _ []). apply map_Some_dense.
Qed.

(** So does a recursive call that is not sorting. *)
Lemma assign_find (sort : bool) (rawIds : list (option (idval Doc))) :
  sorting_of sort rawIds = false ->
  assign sort rawIds true
  = map (fun e => Some (entry_of (nested sort) find e)) rawIds.
Proof.
  intros Hs. unfold assignRawDocsToIdStructure. rewrite Hs.
  rewrite (assign_loop_map (nested sort) false true find
             (fun s acc => place_find (length acc) s acc) rawIds 0%nat []
             eq_refl).
  apply (forEach_assign_dense _ []). apply map_Some_dense.
Qed.

End ReassemblyProperties.

(** C8: in a top-level (findOne) call every position that holds a scalar
    receives the matched document of the result map, or null when there is
    none; it is never left as the bare id, and the structure keeps its
    length.  In particular ids [1, 2, 3] with result map {1: DocA, 3: DocC}
    and no sort give [DocA, null, DocC]. *)
Theorem findOne_doc_or_null :
  (forall Doc (Doc_toString : Doc -> string) (resultDocs : gmap string Doc)
          (resultOrder : gmap string nat) (sort : bool)
          (rawIds : list (option (idval Doc))) (i : nat) (s : scalar Doc),
     rawIds !! i = Some (Some (VScalar s)) ->
     let out := assignRawDocsToIdStructure Doc_toString resultDocs resultOrder
                  sort rawIds false in
     length out = length rawIds
     /\ (out !! i = Some (Some (VScalar SNull))
         \/ exists d, resultDocs !! String_ Doc_toString s = Some d
                      /\ out !! i = Some (Some (VScalar (SDoc d))))
     /\ (resultDocs !! String_ Doc_toString s = None ->
         out !! i = Some (Some (VScalar SNull)))
     /\ (forall d, is_null s = false ->
         resultDocs !! String_ Doc_toString s = Some d ->
         out !! i = Some (Some (VScalar (SDoc d)))))
  /\ (forall Doc (Doc_toString : Doc -> string) (DocA DocC : Doc)
             (resultOrder : gmap string nat),
        assignRawDocsToIdStructure Doc_toString
          (<["1" := DocA]> (<["3" := DocC]> ∅)) resultOrder false
          [id_ 1; id_ 2; id_ 3] false
        = [doc_ DocA; null_; doc_ DocC]).
Proof.
  split.
  - intros Doc Doc_toString resultDocs resultOrder sort rawIds i s Hi out.
    subst out. rewrite assign_findOne, length_map, list_lookup_fmap, Hi.
    simpl. unfold findOne_entry.
    split; [reflexivity |].
    destruct (is_null s && negb (sorting_of sort rawIds)) eqn:E.
    + apply andb_true_iff in E as [E _].
      split; [by left | split; [done | intros d Hs; congruence]].
    + destruct (resultDocs !! String_ Doc_toString s) as [d|] eqn:L.
      * split; [right; by exists d | split; [done | by intros d' _ [= <-]]].
      * split; [by left | split; done].
  - intros Doc Doc_toString DocA DocC resultOrder.
    rewrite assign_findOne. vm_compute. reflexivity.
Qed.

Lemma findOne_doc_or_null_witness :
  let out := assignRawDocsToIdStructure object_toString
               (<["1" := "DocA"]> (<["3" := "DocC"]> ∅)) ∅ false
               [id_ 1; id_ 2; id_ 3] false in
  length out = 3%nat
  /\ (out !! 1%nat = Some (Some (VScalar SNull))
      \/ exists d, (<["1" := "DocA"]> (<["3" := "DocC"]> ∅) : gmap string string)
                     !! String_ object_toString (SNum 2) = Some d
                   /\ out !! 1%nat = Some (Some (VScalar (SDoc d))))
  /\ ((<["1" := "DocA"]> (<["3" := "DocC"]> ∅) : gmap string string)
        !! String_ object_toString (SNum 2) = None ->
      out !! 1%nat = Some (Some (VScalar SNull)))
  /\ (forall d, is_null (SNum 2 : scalar string) = false ->
      (<["1" := "DocA"]> (<["3" := "DocC"]> ∅) : gmap string string)
        !! String_ object_toString (SNum 2) = Some d ->
      out !! 1%nat = Some (Some (VScalar (SDoc d)))).
Proof.
  exact (proj1 findOne_doc_or_null string object_toString
           (<["1" := "DocA"]> (<["3" := "DocC"]> ∅)) ∅ false
           [id_ 1; id_ 2; id_ 3] 1%nat (SNum 2) eq_refl).
Defined.

(** C9: in a recursive (find) call without sort, a scalar id that is
    absent from the result map is kept as the original id, at its position.
    In particular ids [[1,2],[3]] with result map {1: DocA, 2: DocB} give
    [[DocA, DocB], [3]]. *)
Theorem find_keeps_missing_id :
  (forall Doc (Doc_toString : Doc -> string) (resultDocs : gmap string Doc)
          (resultOrder : gmap string nat)
          (rawIds : list (option (idval Doc))) (i : nat) (s : scalar Doc),
     rawIds !! i = Some (Some (VScalar s)) ->
     resultDocs !! String_ Doc_toString s = None ->
     let out := assignRawDocsToIdStructure Doc_toString resultDocs resultOrder
                  false rawIds true in
     length out = length rawIds
     /\ out !! i = Some (Some (VScalar s)))
  /\ (forall Doc (Doc_toString : Doc -> string) (DocA DocB : Doc)
             (resultOrder : gmap string nat),
        assignRawDocsToIdStructure Doc_toString
          (<["1" := DocA]> (<["2" := DocB]> ∅)) resultOrder false
          [arr_ [id_ 1; id_ 2]; arr_ [id_ 3]] false
        = [arr_ [doc_ DocA; doc_ DocB]; arr_ [id_ 3]]).
Proof.
  split.
  - intros Doc Doc_toString resultDocs resultOrder rawIds i s Hi Hs out.
    subst out.
    rewrite assign_find by reflexivity.
    rewrite length_map, list_lookup_fmap, Hi. simpl.
    unfold find_entry. rewrite Hs. split; [reflexivity |]. by destruct s.
  - intros Doc Doc_toString DocA DocB resultOrder.
    vm_compute. reflexivity.
Qed.

Lemma find_keeps_missing_id_witness :
  let out := assignRawDocsToIdStructure object_toString
               (<["1" := "DocA"]> (<["2" := "DocB"]> ∅)) ∅ false
               [id_ 1; id_ 3] true in
  length out = 2%nat /\ out !! 1%nat = Some (Some (VScalar (SNum 3))).
Proof.
  exact (proj1 find_keeps_missing_id string object_toString
           (<["1" := "DocA"]> (<["2" := "DocB"]> ∅)) ∅
           [id_ 1; id_ 3] 1%nat (SNum 3) eq_refl eq_refl).
Defined.

Lemma sorting_of_false (Doc : Type) (sort : bool)
    (rawIds : list (option (idval Doc))) :
  sort = false \/ (length rawIds <= 1)%nat ->
  sorting_of sort rawIds = false.
Proof.
  unfold sorting_of. intros [-> | H]; [reflexivity |].
  apply andb_false_iff. right. apply Nat.ltb_ge. exact H.
Qed.

(** With a sort in effect a recursive call places the documents by rank. *)
Example find_sorted_by_rank :
  assignRawDocsToIdStructure object_toString docs_AB order_AB true
    [id_ 2; id_ 1] true = [doc_ "DocA"; doc_ "DocB"].
Proof. vm_compute. reflexivity. Qed.

(** C6, as stated, fails: with a sort requested, a null is kept in a
    sequence of one element, after the ranked documents of a longer
    sequence, and at its position in a top-level call. *)
Lemma sort_keeps_nulls :
  assignRawDocsToIdStructure object_toString docs_AB order_AB true
    [null_] true = [null_]
  /\ assignRawDocsToIdStructure object_toString docs_AB order_AB true
       [id_ 1; id_ 2; null_] true = [doc_ "DocA"; doc_ "DocB"; null_]
  /\ assignRawDocsToIdStructure object_toString docs_AB order_AB true
       [null_; id_ 1] false = [null_; doc_ "DocA"]
  /\ ~ stated_sort_drops_nulls object_toString docs_AB order_AB true true
        [null_]
  /\ ~ stated_sort_drops_nulls object_toString docs_AB order_AB true true
        [id_ 1; id_ 2; null_]
  /\ ~ stated_sort_drops_nulls object_toString docs_AB order_AB true false
        [null_; id_ 1].
Proof.
  repeat split; try reflexivity.
  - intros [_ H]. exact (H eq_refl 0%nat eq_refl).
  - intros [_ H]. exact (H eq_refl 2%nat eq_refl).
  - intros [_ H]. exact (H eq_refl 0%nat eq_refl).
Qed.

(** C6, amended: null entries of the id structure are preserved verbatim,
    at their positions, when no sort was requested, and also when a sort was
    requested on an id sequence of at most one element. *)
Theorem nulls_preserved_unless_sorting (Doc : Type) (Doc_toString : Doc -> string)
    (resultDocs : gmap string Doc) (resultOrder : gmap string nat)
    (sort recursed : bool) (rawIds : list (option (idval Doc))) (i : nat) :
  rawIds !! i = Some (Some (VScalar SNull)) ->
  sort = false \/ (length rawIds <= 1)%nat ->
  let out := assignRawDocsToIdStructure Doc_toString resultDocs resultOrder
               sort rawIds recursed in
  length out = length rawIds /\ out !! i = Some (Some (VScalar SNull)).
Proof.
  intros Hi Hs out. subst out.
  apply sorting_of_false in Hs.
  destruct recursed.
  - rewrite assign_find by exact Hs.
    by rewrite length_map, list_lookup_fmap, Hi.
  - rewrite assign_findOne, Hs.
    by rewrite length_map, list_lookup_fmap, Hi.
Qed.

Lemma nulls_preserved_unless_sorting_witness :
  let out := assignRawDocsToIdStructure object_toString docs_AB order_AB
               false [id_ 1; null_; id_ 2] true in
  length out = 3%nat /\ out !! 1%nat = Some (Some (VScalar SNull)).
Proof.
  exact (nulls_preserved_unless_sorting string object_toString docs_AB order_AB
           false true [id_ 1; null_; id_ 2] 1%nat eq_refl (or_introl eq_refl)).
Defined.

(** C10, as stated, fails: a sequence of one element that is itself a
    sequence of two ids is rebuilt in rank order under a sort, and in
    arrival order without. *)
Lemma short_sequence_nested_sorted :
  assignRawDocsToIdStructure object_toString docs_AB order_AB true
    [arr_ [id_ 2; id_ 1]] false = [arr_ [doc_ "DocA"; doc_ "DocB"]]
  /\ assignRawDocsToIdStructure object_toString docs_AB order_AB false
       [arr_ [id_ 2; id_ 1]] false = [arr_ [doc_ "DocB"; doc_ "DocA"]]
  /\ ~ stated_short_sequence_unsorted object_toString docs_AB order_AB false
        [arr_ [id_ 2; id_ 1]].
Proof.
  split; [reflexivity | split; [reflexivity |]].
  intros H. specialize (H (le_n 1)). vm_compute in H. discriminate H.
Qed.

(** C10, amended: for every call with a sort option set and an id sequence
    of length 0 or 1, the call handles its own entry exactly as in the
    unsorted case (nulls preserved, the order map not consulted): when the
    entry is not a nested sequence the result is that of the unsorted call,
    whatever the order map; when it is, the nested sequence is rebuilt by
    its own recursive call, which sorts it when it has more than one
    element. *)
Theorem short_sequence_not_sorted (Doc : Type) (Doc_toString : Doc -> string)
    (resultDocs : gmap string Doc) (resultOrder resultOrder' : gmap string nat)
    (recursed : bool) (rawIds : list (option (idval Doc))) :
  (length rawIds <= 1)%nat ->
  assignRawDocsToIdStructure Doc_toString resultDocs resultOrder true
    rawIds recursed
  = match rawIds with
    | [Some (VArr a)] =>
        [Some (VArr (assignRawDocsToIdStructure Doc_toString resultDocs
                       resultOrder true a true))]
    | _ =>
        assignRawDocsToIdStructure Doc_toString resultDocs resultOrder' false
          rawIds recursed
    end.
Proof.
  intros Hlen. destruct rawIds as [|e [|e' l]].
  - reflexivity.
  - destruct e as [[s | a] |]; reflexivity.
  - simpl in Hlen. lia.
Qed.

Lemma short_sequence_not_sorted_witness :
  assignRawDocsToIdStructure object_toString docs_AB order_AB true
    [null_] true
  = assignRawDocsToIdStructure object_toString docs_AB ∅ false [null_] true.
Proof.
  exact (short_sequence_not_sorted string object_toString docs_AB order_AB ∅
           true [null_] (le_n 1)).
Defined.

(** * Further properties *)

(** ** The delta builder *)

Lemma delta_loop_app (this : Document) (l1 l2 : list DirtyData)
    (st : Clauses * list string) :
  delta_loop this (l1 ++ l2)%list st
  = match delta_loop this l1 st with
    | Normal st' => delta_loop this l2 st'
    | Throw name => Throw name
    end.
Proof.
  revert st. induction l1 as [|data l1 IH]; intros st; [reflexivity |].
  cbn [app delta_loop]. destruct (delta_step this st data); [apply IH | done].
Qed.

(** Without dirty records [$__delta] returns nothing or a pair. *)
Lemma delta_empty (this : Document) :
  dirty this = [] ->
  (Model__delta this).2
  = if VERSION_ALL =? version this
    then let '(_, w, d) := Model__version this (WhereClause ∅) ∅ in
         match w with
         | WhereClause w => Delta w d
         | WhereTrue => Delta ∅ d
         end
    else NoDelta.
Proof.
  intros Hd. unfold Model__delta. rewrite Hd.
  change (length (@nil DirtyData) =? 0)%nat with true. rewrite andb_true_l.
  destruct (Z.eqb_spec VERSION_ALL (version this)) as [E|E]; [| reflexivity].
  cbn [negb delta_loop length Nat.eqb c_where c_delta]. rewrite <- E.
  change (negb (VERSION_ALL =? 0)) with true. cbv iota.
  by destruct (Model__version this (WhereClause ∅) ∅) as [[this' [|w]] d].
Qed.

(** With a flagged record first, the loop runs to its end and the error is
    returned. *)
Lemma delta_first_flagged (this : Document) (data : DirtyData)
    (l : list DirtyData) (m : string) :
  dirty this = data :: l ->
  divergence this data = Some m ->
  (Model__delta this).2
  = DivergentArrayError (omap (divergence this) (dirty this)).
Proof.
  intros Hd Hm. unfold Model__delta. rewrite Hd.
  change (length (data :: l) =? 0)%nat with false. rewrite andb_false_l.
  cbn [delta_loop omap list_omap].
  rewrite (delta_step_flagged this _ [] data m Hm), Hm.
  rewrite delta_loop_diverged by done. reflexivity.
Qed.

(** With a record first that is not flagged, the call throws. *)
Lemma delta_first_unflagged (this : Document) (data : DirtyData)
    (l : list DirtyData) :
  dirty this = data :: l ->
  divergence this data = None ->
  exists name,
    (Model__delta this).2 = ReferenceError name
    /\ (name = "operand" \/ name = "handleAtomics").
Proof.
  intros Hd Hm. unfold Model__delta. rewrite Hd.
  change (length (data :: l) =? 0)%nat with false. rewrite andb_false_l.
  cbn [delta_loop].
  destruct (delta_step_throws this {| c_where := ∅; c_delta := ∅ |} data Hm)
    as (name & -> & Hname).
  by exists name.
Qed.

(** X1: [$__delta] returns nothing exactly when there is no dirty record
    and the version state is not WHERE|INC. *)
Theorem delta_noop_iff (this : Document) :
  (Model__delta this).2 = NoDelta
  <-> dirty this = [] /\ version this <> VERSION_ALL.
Proof.
  destruct (dirty this) as [|d l] eqn:Hd.
  - rewrite (delta_empty this Hd).
    destruct (Z.eqb_spec VERSION_ALL (version this)) as [E|E].
    + split; [| intros [_ H]; congruence].
      destruct (Model__version this (WhereClause ∅) ∅) as [[this' [|w]] dl];
        discriminate.
    + split; [intros _; split; [done | congruence] | done].
  - split; [| intros [H _]; discriminate H].
    destruct (divergence this d) as [m|] eqn:E.
    + rewrite (delta_first_flagged this d l m Hd E). discriminate.
    + destruct (delta_first_unflagged this d l Hd E) as (name & -> & _).
      discriminate.
Qed.


(** X3: with dirty records, what [$__delta] does is decided by the first
    one.  It returns the DivergentArrayError exactly when the first dirty
    record is flagged by checkDivergentArray, and the error then carries
    the matches of all the flagged records, in their order.  It throws a
    ReferenceError exactly when the first dirty record is not flagged,
    whatever is flagged after it, since the operand of that record is built
    by a function that is not bound. *)
Theorem delta_error_iff_first_flagged (this : Document) :
  ((exists paths, (Model__delta this).2 = DivergentArrayError paths)
   <-> exists data l, dirty this = data :: l /\ is_Some (divergence this data))
  /\ (forall paths, (Model__delta this).2 = DivergentArrayError paths ->
        paths = omap (divergence this) (dirty this))
  /\ ((exists name, (Model__delta this).2 = ReferenceError name)
      <-> exists data l, dirty this = data :: l /\ divergence this data = None).
Proof.
  destruct (dirty this) as [|d l] eqn:Hd.
  - pose proof (delta_empty this Hd) as He.
    assert (forall r, (Model__delta this).2 = r ->
                      r = NoDelta \/ exists w dl, r = Delta w dl) as Hcases.
    { intros r <-. rewrite He.
      destruct (VERSION_ALL =? version this); [| by left].
      destruct (Model__version this (WhereClause ∅) ∅) as [[this' [|w]] dl];
        right; eauto. }
    split; [| split].
    + split; [| by intros (? & ? & ? & _)].
      intros [paths H]. destruct (Hcases _ H) as [? | (? & ? & ?)]; done.
    + intros paths H. destruct (Hcases _ H) as [? | (? & ? & ?)]; done.
    + split; [| by intros (? & ? & ? & _)].
      intros [name H]. destruct (Hcases _ H) as [? | (? & ? & ?)]; done.
  - destruct (divergence this d) as [m|] eqn:E.
    + pose proof (delta_first_flagged this d l m Hd E) as H.
      rewrite Hd in H. split; [| split].
      * split; [intros _; exists d, l; split; [done |]; rewrite E; eauto
               | intros _; eauto].
      * intros paths Hp. rewrite H in Hp. by injection Hp as <-.
      * split; [intros [name Hn]; by rewrite H in Hn |].
        intros (d' & l' & [= <- <-] & E'). by rewrite E in E'.
    + destruct (delta_first_unflagged this d l Hd E) as (name & H & _).
      split; [| split].
      * split; [intros [paths Hp]; by rewrite H in Hp |].
        intros (d' & l' & [= <- <-] & [m E']). by rewrite E in E'.
      * intros paths Hp. by rewrite H in Hp.
      * split; [intros _; by exists d, l | intros _; eauto].
Qed.

(** X4: the dirty records that follow a flagged one add nothing to the
    clauses: the where and update clauses after the loop are those built from
    the records before the flagged one, and the loop throws only where the
    loop over the records before the flagged one throws. *)
Theorem operands_stop_at_divergence (this : Document)
    (l1 l2 : list DirtyData) (d : DirtyData) (st : Clauses * list string) :
  is_Some (divergence this d) ->
  completion_map fst (delta_loop this (l1 ++ d :: l2)%list st)
  = completion_map fst (delta_loop this l1 st).
Proof.
  intros [m Hd]. rewrite delta_loop_app.
  destruct (delta_loop this l1 st) as [[c div]|name]; [| reflexivity].
  cbn [delta_loop]. rewrite (delta_step_flagged this c div d m Hd).
  rewrite delta_loop_diverged by (by destruct div). reflexivity.
Qed.

Lemma delta_noop_is_empty_witness :
  (Model__delta blank_doc).2 = NoDelta.
Proof.
  apply (delta_noop_iff blank_doc).
  split; [reflexivity | discriminate].
Defined.


Lemma operands_stop_at_divergence_witness :
  completion_map fst
    (delta_loop tags_limited ([] ++ tags_replaced :: [name_changed])%list
       ({| c_where := ∅; c_delta := ∅ |}, []))
  = completion_map fst
      (delta_loop tags_limited []
         ({| c_where := ∅; c_delta := ∅ |}, [])).
Proof.
  exact (operands_stop_at_divergence tags_limited [] [name_changed]
           tags_replaced _ (ex_intro _ "tags" eq_refl)).
Defined.

(** ** The version step *)

Lemma setValue_twice (this : Document) (k : string) (v : jsval) :
  setValue (setValue this k v) k v = setValue this k v.
Proof. unfold setValue. simpl. by rewrite insert_insert_eq. Qed.

Lemma put_twice (v : jsval) (k : string) (x : jsval) :
  put (put v k x) k x = put v k x.
Proof. destruct v; simpl; try reflexivity. by rewrite insert_insert_eq. Qed.

Lemma get_insert_eq (m : gmap string jsval) (k : string) (v : jsval) :
  get (JObj (<[k := v]> m)) k = v.
Proof. unfold get. by rewrite lookup_insert_eq. Qed.

Lemma truthy_put (v : jsval) (k : string) (x : jsval) :
  truthy (put v k x) = truthy v.
Proof. by destruct v. Qed.

(** The update object after the update part of the version step. *)
Lemma version_update_delta (this : Document) (w delta : gmap string jsval) :
  (version_update this w delta).2
  = if isSelected this (key_name (versionKey this))
       && (VERSION_INC =? bitand VERSION_INC (version this))
    then <["$inc" := put (if truthy (get (JObj delta) "$inc")
                          then get (JObj delta) "$inc" else JObj ∅)
                       (key_name (versionKey this)) (JNum 1)]> delta
    else delta.
Proof.
  unfold version_update.
  destruct (isSelected this (key_name (versionKey this))); [| reflexivity].
  destruct (VERSION_INC =? bitand VERSION_INC (version this)); [| reflexivity].
  simpl. destruct (truthy (default JUndefined (delta !! "$inc"))) eqn:E; [done |].
  rewrite lookup_insert_eq. simpl. by rewrite insert_insert_eq.
Qed.

Lemma version_update_where (this : Document) (w delta : gmap string jsval) :
  (version_update this w delta).1
  = if isSelected this (key_name (versionKey this))
       && (VERSION_WHERE =? bitand VERSION_WHERE (version this))
    then <[key_name (versionKey this)
           := getValue this (key_name (versionKey this))]> w
    else w.
Proof.
  unfold version_update.
  destruct (isSelected this (key_name (versionKey this))); [| reflexivity].
  by destruct (VERSION_WHERE =? bitand VERSION_WHERE (version this)).
Qed.

Lemma version_update_twice (this : Document) (w delta : gmap string jsval) :
  version_update this (version_update this w delta).1
    (version_update this w delta).2
  = version_update this w delta.
Proof.
  apply injective_projections.
  - rewrite !version_update_where.
    destruct (isSelected this (key_name (versionKey this))
              && (VERSION_WHERE =? bitand VERSION_WHERE (version this)));
      [by rewrite insert_insert_eq | reflexivity].
  - rewrite (version_update_delta this (version_update this w delta).1).
    rewrite !version_update_delta.
    destruct (isSelected this (key_name (versionKey this))
              && (VERSION_INC =? bitand VERSION_INC (version this)));
      [| reflexivity].
    set (X := put (if truthy (get (JObj delta) "$inc")
                   then get (JObj delta) "$inc" else JObj ∅)
                (key_name (versionKey this)) (JNum 1)).
    assert (truthy X = true) as HX.
    { subst X. rewrite truthy_put.
      by destruct (truthy (get (JObj delta) "$inc")) eqn:E. }
    rewrite get_insert_eq, HX. subst X.
    by rewrite put_twice, insert_insert_eq.
Qed.

(** X5: the version step is idempotent: a second call with the clauses of
    the first changes neither the document nor the clauses. *)
Theorem version_step_idempotent (this : Document) (where_ : WhereArg)
    (delta : gmap string jsval) :
  let '(this1, where1, delta1) := Model__version this where_ delta in
  Model__version this1 where1 delta1 = (this1, where1, delta1).
Proof.
  unfold Model__version. destruct where_ as [|w].
  - destruct (key_truthy (versionKey this)) eqn:K.
    + cbn [versionKey setValue]. rewrite K.
      fold (setValue this (key_name (versionKey this)) (JNum 0)).
      by rewrite setValue_twice, insert_insert_eq.
    + by rewrite K.
  - pose proof (version_update_twice this w delta) as H.
    destruct (version_update this w delta) as [w1 d1]. simpl in H.
    by rewrite H.
Qed.


(** ** checkDivergentArray *)

(** X7: a populated array whose queued atomic operations are neither a full
    replace nor a pop (pushes, pulls, additions to a set) is never flagged,
    whatever the options it was populated with. *)
Theorem queued_pushes_not_flagged (doc : Document) (path : string)
    (pop : PopulateOptions) (p : jsval) (atomics : gmap string jsval)
    (items : list jsval) :
  populated doc !! path = Some pop ->
  size atomics <> 0%nat ->
  truthy (get (JObj atomics) "$set") = false ->
  truthy (get (JObj atomics) "$pop") = false ->
  checkDivergentArray doc path (DMongooseArray p atomics items) = None.
Proof.
  intros Hpop Hsize Hset Hpop'. unfold checkDivergentArray.
  rewrite Hpop, Hset, Hpop'.
  apply Nat.eqb_neq in Hsize. rewrite Hsize. simpl.
  by rewrite andb_false_r.
Qed.

Lemma queued_pushes_not_flagged_witness :
  checkDivergentArray tags_limited "tags"
    (DMongooseArray (JStr "tags") {[ "$push" := JObj ∅ ]} []) = None.
Proof.
  apply (queued_pushes_not_flagged tags_limited "tags" limit_5).
  - reflexivity.
  - vm_compute. discriminate.
  - reflexivity.
  - reflexivity.
Defined.

(** X8: what checkDivergentArray flags is the path itself, for a populated
    path whose new value is a tracked array and whose population was
    limited, or the top-level segment of the path, for a path that was not
    populated and whose top-level segment was selected with [$elemMatch];
    nothing else is ever flagged. *)
Theorem flagged_is_path_or_top (doc : Document) (path : string)
    (array : DirtyValue) (m : string) :
  checkDivergentArray doc path array = Some m ->
  match populated doc !! path with
  | Some pop =>
      m = path
      /\ (exists p atomics items, array = DMongooseArray p atomics items)
      /\ check pop = true
  | None => m = top_segment path /\ projected_elemMatch doc path
  end.
Proof.
  unfold checkDivergentArray, projected_elemMatch.
  destruct (populated doc !! path) as [pop|].
  - destruct array as [| |p atomics items| |]; try discriminate.
    destruct (check pop); [| discriminate].
    destruct (_ && _); [| discriminate].
    intros [= <-]. eauto 10.
  - destruct (truthy (selected doc)); [| discriminate].
    destruct (truthy (get (selected doc) (top_segment path))); [| discriminate].
    destruct (truthy (get (get (selected doc) (top_segment path)) "$elemMatch"));
      [| discriminate].
    intros [= <-]. done.
Qed.

Lemma flagged_is_path_or_top_witness :
  "tags" = "tags"
  /\ (exists p atomics items,
        value tags_replaced = DMongooseArray p atomics items)
  /\ check limit_5 = true.
Proof.
  exact (flagged_is_path_or_top tags_limited "tags" (value tags_replaced)
           "tags" eq_refl).
Defined.

Lemma top_segment_append (top rest : string) :
  top_segment top = top ->
  top_segment (top ++ "." ++ rest) = top.
Proof.
  induction top as [|c top IH]; intros H.
  - reflexivity.
  - rewrite append_cons. simpl in *.
    destruct (Ascii.eqb c "."); [discriminate H |].
    injection H as H. by rewrite IH.
Qed.

(** X9: for a document loaded with an [$elemMatch] projection on an array,
    a write to any path below the array (array.rest, the array's name being
    a single segment) is flagged at the array, provided that path was not
    populated. *)
Theorem subpath_flagged_at_array (doc : Document) (top rest : string)
    (array : DirtyValue) :
  top_segment top = top ->
  truthy (get (get (selected doc) top) "$elemMatch") = true ->
  populated doc !! (top ++ "." ++ rest) = None ->
  checkDivergentArray doc (top ++ "." ++ rest) array = Some top.
Proof.
  intros Htop Hsel Hpop. unfold checkDivergentArray.
  rewrite Hpop, (top_segment_append top rest Htop), Hsel.
  destruct (get (selected doc) top) eqn:E; try discriminate Hsel.
  destruct (selected doc); try discriminate E.
  reflexivity.
Qed.

Lemma subpath_flagged_at_array_witness :
  checkDivergentArray (with_selected elemMatch_comments blank_doc)
    ("comments" ++ "." ++ "3.author.name") DNull = Some "comments".
Proof.
  exact (subpath_flagged_at_array (with_selected elemMatch_comments blank_doc)
           "comments" "3.author.name" DNull eq_refl eq_refl eq_refl).
Defined.

(** ** valueFilter *)

Lemma isDoc_maybeRemoveId (v : idval PopDoc) (ex : bool) :
  isDoc (maybeRemoveId v ex) = isDoc v.
Proof. destruct ex, v as [[| | | | |[d|o]]|a]; reflexivity. Qed.

Lemma maybeRemoveId_twice (v : idval PopDoc) (ex : bool) :
  maybeRemoveId (maybeRemoveId v ex) ex = maybeRemoveId v ex.
Proof.
  destruct ex; [| reflexivity].
  destruct v as [[| | | | |[d|o]]|a]; try reflexivity; simpl.
  - by rewrite setValue_twice.
  - by rewrite delete_delete_eq.
Qed.

(** The find logic as a filter: the documents of [val], in their order. *)
Lemma valueFilter_loop_spec (a : list (option (idval PopDoc))) (ex : bool)
    (ret : list (option (idval PopDoc))) :
  valueFilter_loop a ex ret
  = (ret ++ map (fun v => Some (maybeRemoveId v ex))
              (List.filter isDoc (map read a)))%list.
Proof.
  revert ret. induction a as [|e a IH]; intros ret; simpl.
  - by rewrite app_nil_r.
  - destruct (isDoc (read e)); [| apply IH].
    rewrite IH. unfold array_push. by rewrite <- app_assoc.
Qed.

(** X10: the array that the find logic of valueFilter returns holds only
    values that pass isDoc (documents, or nested arrays): no hole, no null
    or undefined, no string, number or ObjectID; and it is not longer than
    the array it was given. *)
Theorem valueFilter_array_documents (a : list (option (idval PopDoc)))
    (ex : bool) :
  exists ret,
    valueFilter (VArr a) ex = VArr ret
    /\ Forall (fun e => exists v, e = Some v /\ isDoc v = true) ret
    /\ (length ret <= length a)%nat.
Proof.
  exists (valueFilter_loop a ex []). split; [reflexivity |].
  rewrite valueFilter_loop_spec, app_nil_l. split.
  - apply Forall_forall. intros e He.
    apply list_elem_of_In, in_map_iff in He as (v & <- & Hv).
    apply filter_In in Hv as [_ Hv].
    exists (maybeRemoveId v ex). by rewrite isDoc_maybeRemoveId.
  - rewrite length_map.
    etransitivity; [apply List.filter_length_le |]. by rewrite length_map.
Qed.

Lemma filter_isDoc_removed (l : list (idval PopDoc)) (ex : bool) :
  List.filter isDoc
    (map read (map (fun v => Some (maybeRemoveId v ex)) (List.filter isDoc l)))
  = map (fun v => maybeRemoveId v ex) (List.filter isDoc l).
Proof.
  induction l as [|v l IH]; [reflexivity |]. simpl.
  destruct (isDoc v) eqn:E; [| exact IH].
  simpl. rewrite isDoc_maybeRemoveId, E. by rewrite IH.
Qed.

(** X11: valueFilter is idempotent: filtering its result again, with the
    same option, changes nothing. *)
Theorem valueFilter_idempotent (val : idval PopDoc) (ex : bool) :
  valueFilter (valueFilter val ex) ex = valueFilter val ex.
Proof.
  destruct val as [s | a].
  - destruct s as [| | | | |[d | o]]; try reflexivity;
      destruct ex; simpl; try reflexivity.
    + by rewrite setValue_twice.
    + by rewrite delete_delete_eq.
  - simpl. f_equal. rewrite !valueFilter_loop_spec, !app_nil_l.
    rewrite filter_isDoc_removed, map_map.
    apply map_ext. intros v. by rewrite maybeRemoveId_twice.
Qed.

Lemma doc_id_removed (v : idval PopDoc) (d : PopDoc) :
  maybeRemoveId v true = VScalar (SDoc d) -> doc_id d = JUndefined.
Proof.
  destruct v as [[| | | | |[d'|o]]|a]; simpl; try discriminate.
  - intros [= <-]. simpl. unfold getValue, setValue. simpl.
    by rewrite lookup_insert_eq.
  - intros [= <-]. simpl. by rewrite lookup_delete_eq.
Qed.

(** X12: with the option [excludeId], no document that valueFilter returns
    shows an identifier: neither the single document of the findOne logic
    nor any document of the array of the find logic. *)
Theorem valueFilter_excludes_id (val : idval PopDoc) (d : PopDoc) :
  valueFilter val true = VScalar (SDoc d)
  \/ (exists ret, valueFilter val true = VArr ret
                  /\ Some (VScalar (SDoc d)) ∈ ret) ->
  doc_id d = JUndefined.
Proof.
  intros [H | (ret & H & Hin)].
  - destruct val as [s | a]; [| discriminate H].
    unfold valueFilter in H. destruct (isDoc (VScalar s)); [| discriminate H].
    by apply doc_id_removed in H.
  - destruct val as [s | a].
    + unfold valueFilter in H.
      destruct s as [| | | | |[d'|o]]; discriminate H.
    + simpl in H. injection H as <-.
      rewrite valueFilter_loop_spec, app_nil_l in Hin.
      apply list_elem_of_In, in_map_iff in Hin as (v & Hv & _).
      injection Hv as Hv. by apply doc_id_removed in Hv.
Qed.

(** A lean document and a mongoose document, both with identifier 1. *)
Definition lean_1 : PopDoc :=
  LeanObject {[ "_id" := JNum 1; "name" := JStr "a" ]}.
Definition model_1 : PopDoc :=
  MongooseDocument (setValue blank_doc "_id" (JNum 1)).

Lemma valueFilter_excludes_id_witness :
  doc_id (MongooseDocument (setValue (setValue blank_doc "_id" (JNum 1))
                              "_id" JUndefined)) = JUndefined.
Proof.
  apply (valueFilter_excludes_id
           (VArr [null_; doc_ lean_1; id_ 7; doc_ model_1])).
  right. eexists. split; [reflexivity |].
  right. left.
Defined.

(** ** Reassembly followed by valueFilter *)

Lemma find_entry_cases (Doc_toString : PopDoc -> string)
    (resultDocs : gmap string PopDoc) (s : scalar PopDoc) :
  (forall d, s <> SDoc d) ->
  match (if is_null s then None else resultDocs !! String_ Doc_toString s) with
  | Some d => find_entry Doc_toString resultDocs s = VScalar (SDoc d)
  | None => isDoc (find_entry Doc_toString resultDocs s) = false
  end.
Proof.
  intros Hs. unfold find_entry.
  destruct (is_null s) eqn:N; [reflexivity |].
  destruct (resultDocs !! String_ Doc_toString s) as [d|]; [reflexivity |].
  destruct s as [| | | | |d]; try reflexivity. by destruct (Hs d).
Qed.

Lemma filter_find_entries (Doc_toString : PopDoc -> string)
    (resultDocs : gmap string PopDoc) (rec : idval PopDoc -> idval PopDoc)
    (ids : list (scalar PopDoc)) :
  Forall (fun s => forall d, s <> SDoc d) ids ->
  List.filter isDoc
    (map read
       (map (fun e => Some (entry_of rec (find_entry Doc_toString resultDocs) e))
          (map (fun s => Some (VScalar s)) ids)))
  = map (fun d => VScalar (SDoc d))
      (omap (fun s => if is_null s then None
                      else resultDocs !! String_ Doc_toString s) ids).
Proof.
  induction 1 as [|s ids Hs _ IH]; [reflexivity |].
  cbn [map List.filter omap list_omap read entry_of default]. unfold id.
  pose proof (find_entry_cases Doc_toString resultDocs s Hs) as Hc.
  destruct (if is_null s then None else resultDocs !! String_ Doc_toString s)
    as [d|].
  - rewrite Hc. cbn [isDoc map]. by rewrite IH.
  - rewrite Hc. exact IH.
Qed.

Lemma assign_nested_VArr {Doc} (Doc_toString : Doc -> string)
    (resultDocs : gmap string Doc) (resultOrder : gmap string nat)
    (sort : bool) (a : list (option (idval Doc))) :
  assign_nested Doc_toString resultDocs resultOrder sort (VArr a)
  = VArr (assignRawDocsToIdStructure Doc_toString resultDocs resultOrder sort
            a true).
Proof. reflexivity. Qed.

(** X13: a top-level call keeps one position per position of its input,
    sorting or not: the structure keeps its length, and a position that
    holds a nested sequence holds that sequence rebuilt by the recursive
    call. *)
Theorem top_level_positions_kept (Doc : Type) (Doc_toString : Doc -> string)
    (resultDocs : gmap string Doc) (resultOrder : gmap string nat)
    (sort : bool) (rawIds : list (option (idval Doc))) :
  let out := assignRawDocsToIdStructure Doc_toString resultDocs resultOrder
               sort rawIds false in
  length out = length rawIds
  /\ Forall is_Some out
  /\ forall i a,
       rawIds !! i = Some (Some (VArr a)) ->
       out !! i
       = Some (Some (VArr (assignRawDocsToIdStructure Doc_toString resultDocs
                             resultOrder sort a true))).
Proof.
  intros out. subst out. rewrite assign_findOne. split; [| split].
  - by rewrite length_map.
  - apply map_Some_dense.
  - intros i a Hi. by rewrite list_lookup_fmap, Hi.
Qed.

(** X14: what a document's array path holds after population without a
    sort: valueFilter applied to the rebuilt sequence of ids gives the
    fetched documents of the ids that have one, in the order of the ids;
    nulls and ids without a document are gone. *)
Theorem populated_array_after_filter (Doc_toString : PopDoc -> string)
    (resultDocs : gmap string PopDoc) (resultOrder : gmap string nat)
    (rawIds : list (option (idval PopDoc))) (i : nat)
    (ids : list (scalar PopDoc)) (ex : bool) :
  rawIds !! i = Some (Some (VArr (map (fun s => Some (VScalar s)) ids))) ->
  Forall (fun s => forall d, s <> SDoc d) ids ->
  exists v,
    assignRawDocsToIdStructure Doc_toString resultDocs resultOrder false
      rawIds false !! i = Some (Some v)
    /\ valueFilter v ex
       = VArr (map (fun d => Some (maybeRemoveId (VScalar (SDoc d)) ex))
                 (omap (fun s => if is_null s then None
                                 else resultDocs !! String_ Doc_toString s)
                    ids)).
Proof.
  intros Hi Hids.
  eexists. split.
  - rewrite assign_findOne, list_lookup_fmap, Hi. reflexivity.
  - cbn [entry_of]. rewrite assign_nested_VArr.
    rewrite assign_find by reflexivity.
    cbn [valueFilter]. f_equal.
    rewrite valueFilter_loop_spec, app_nil_l.
    rewrite (filter_find_entries Doc_toString resultDocs _ ids Hids).
    by rewrite map_map.
Qed.

Lemma populated_array_after_filter_witness :
  exists v,
    assignRawDocsToIdStructure (fun _ : PopDoc => "[object Object]")
      (<["1" := lean_1]> (<["2" := model_1]> ∅)) ∅ false
      [arr_ [id_ 2; null_; id_ 9; id_ 1]] false !! 0%nat = Some (Some v)
    /\ valueFilter v false = VArr [doc_ model_1; doc_ lean_1].
Proof.
  exact (populated_array_after_filter (fun _ : PopDoc => "[object Object]")
           (<["1" := lean_1]> (<["2" := model_1]> ∅)) ∅
           [arr_ [id_ 2; null_; id_ 9; id_ 1]] 0%nat
           [SNum 2; SNull; SNum 9; SNum 1] false eq_refl
           ltac:(repeat constructor; discriminate)).
Defined.

(** ** Sorted reassembly *)

Lemma array_set_length {A} (a : list (option A)) (i : nat) (v : A) :
  length (array_set a i v) = max (length a) (S i).
Proof.
  unfold array_set. destruct (decide (i < length a)%nat).
  - rewrite length_insert. lia.
  - rewrite !length_app, length_replicate. simpl. lia.
Qed.

(** Reading an array after [a[i] = v]. *)
Lemma array_set_lookup {A} (a : list (option A)) (i : nat) (v : A)
    (k : nat) (x : A) :
  array_set a i v !! k = Some (Some x)
  <-> (k = i /\ x = v) \/ (k <> i /\ a !! k = Some (Some x)).
Proof.
  unfold array_set. destruct (decide (i < length a)%nat) as [Hi | Hi].
  - destruct (decide (k = i)) as [-> | Hk].
    + rewrite list_lookup_insert_eq by done. naive_solver.
    + rewrite list_lookup_insert_ne by done. naive_solver.
  - destruct (decide (k < length a)%nat) as [Hk | Hk].
    + rewrite lookup_app_l by done. split; [intros H; right; split; [lia | done] |].
      intros [[-> _] | [_ H]]; [lia | done].
    + rewrite lookup_app_r by lia.
      destruct (decide (k - length a < i - length a)%nat) as [Hlt | Hge].
      * rewrite lookup_app_l by (rewrite length_replicate; lia).
        rewrite lookup_replicate_2 by lia.
        split; [discriminate |].
        intros [[-> _] | [_ H]]; [lia |].
        apply lookup_lt_Some in H. lia.
      * rewrite lookup_app_r by (rewrite length_replicate; lia).
        rewrite length_replicate.
        destruct (decide (k = i)) as [-> | Hne].
        -- replace (i - length a - (i - length a))%nat with 0%nat by lia.
           simpl. naive_solver.
        -- replace (k - length a - (i - length a))%nat with (S (k - i - 1))
             by lia.
           simpl. rewrite lookup_nil. split; [discriminate |].
           intros [[-> _] | [_ H]]; [done |].
           apply lookup_lt_Some in H. lia.
Qed.

(** Copying [newOrder] back keeps every element at its index. *)
Lemma forEach_assign_lookup {Doc} (l : list (option (idval Doc))) (i : nat)
    (acc : list (option (idval Doc))) (k : nat) (x : idval Doc) :
  (length acc <= i)%nat ->
  forEach_assign l i acc !! k = Some (Some x)
  <-> acc !! k = Some (Some x) \/ (i <= k /\ l !! (k - i)%nat = Some (Some x))%nat.
Proof.
  revert i acc. induction l as [|[d|] l IH]; intros i acc Hlen; simpl.
  - rewrite lookup_nil. naive_solver.
  - rewrite IH by (rewrite array_set_length; lia).
    rewrite array_set_lookup. split.
    + intros [[[-> ->] | [Hk H]] | [Hk H]].
      * right. split; [lia |]. by rewrite Nat.sub_diag.
      * by left.
      * right. split; [lia |].
        replace (k - i)%nat with (S (k - S i)) by lia. exact H.
    + intros [H | [Hk H]].
      * left. right. split; [| done]. apply lookup_lt_Some in H. lia.
      * destruct (decide (k = i)) as [-> | Hne].
        -- rewrite Nat.sub_diag in H. injection H as ->. left. by left.
        -- right. split; [lia |].
           replace (k - i)%nat with (S (k - S i)) in H by lia. exact H.
  - rewrite IH by lia. split.
    + intros [H | [Hk H]]; [by left |].
      right. split; [lia |].
      replace (k - i)%nat with (S (k - S i)) by lia. exact H.
    + intros [H | [Hk H]]; [by left |].
      destruct (decide (k = i)) as [-> | Hne].
      * rewrite Nat.sub_diag in H. discriminate H.
      * right. split; [lia |].
        replace (k - i)%nat with (S (k - S i)) in H by lia. exact H.
Qed.

Section SortedProperties.

Context {Doc : Type} (Doc_toString : Doc -> string).
Variable resultDocs : gmap string Doc.
Variable resultOrder : gmap string nat.
Variable rec : idval Doc -> idval Doc.

Local Abbreviation ranked := (ranked_doc Doc_toString resultDocs resultOrder).
Local Abbreviation sorted_loop :=
  (assign_loop Doc_toString resultDocs resultOrder rec true true).

(** One turn of a sorting recursive call. *)
Definition sorted_turn (i : nat) (e : option (idval Doc))
    (acc : list (option (idval Doc))) : list (option (idval Doc)) :=
  sorted_loop [e] i acc.

Lemma sorted_loop_cons (e : option (idval Doc)) (l : list (option (idval Doc)))
    (i : nat) (acc : list (option (idval Doc))) :
  sorted_loop (e :: l) i acc = sorted_loop l (S i) (sorted_turn i e acc).
Proof. reflexivity. Qed.

(** A turn for an entry with a document and a rank assigns the document at
    the rank. *)
Lemma sorted_turn_ranked (i : nat) (e : option (idval Doc))
    (acc : list (option (idval Doc))) (k : nat) (d : Doc) :
  ranked e = Some (k, d) ->
  sorted_turn i e acc = array_set acc k (VScalar (SDoc d)).
Proof.
  unfold ranked_doc, sorted_turn. intros H.
  destruct e as [[s | a] |]; simpl in *; try discriminate H.
  - unfold place. simpl. rewrite andb_false_r.
    destruct (resultDocs !! String_ Doc_toString s); [| discriminate H].
    destruct (resultOrder !! String_ Doc_toString s); [| discriminate H].
    by injection H as <- <-.
  - unfold place. simpl.
    destruct (resultDocs !! "undefined"); [| discriminate H].
    destruct (resultOrder !! "undefined"); [| discriminate H].
    by injection H as <- <-.
Qed.

(** A turn never disturbs an index that is already filled, unless it is the
    rank of the entry. *)
Lemma sorted_turn_keeps (i : nat) (e : option (idval Doc))
    (acc : list (option (idval Doc))) (k : nat) (x : idval Doc) :
  acc !! k = Some (Some x) ->
  (forall d, ranked e <> Some (k, d)) ->
  sorted_turn i e acc !! k = Some (Some x).
Proof.
  intros Hk Hr.
  destruct (ranked e) as [[k' d']|] eqn:E.
  - rewrite (sorted_turn_ranked i e acc k' d' E).
    apply array_set_lookup. right. split; [| done].
    intros ->. by apply (Hr d').
  - clear Hr. unfold ranked_doc, sorted_turn in *.
    assert (forall v, (array_push acc v) !! k = Some (Some x)) as Hpush.
    { intros v. unfold array_push. rewrite lookup_app_l; [done |].
      by apply lookup_lt_Some in Hk. }
    destruct e as [[s | a] |]; simpl in *.
    + unfold place. simpl. rewrite andb_false_r.
      destruct (resultDocs !! String_ Doc_toString s); [| apply Hpush].
      destruct (resultOrder !! String_ Doc_toString s); [discriminate E | done].
    + apply Hpush.
    + unfold place. simpl.
      destruct (resultDocs !! "undefined"); [| apply Hpush].
      destruct (resultOrder !! "undefined"); [discriminate E | done].
Qed.

Lemma sorted_loop_keeps (l : list (option (idval Doc))) (i : nat)
    (acc : list (option (idval Doc))) (k : nat) (x : idval Doc) :
  acc !! k = Some (Some x) ->
  Forall (fun e => forall d, ranked e <> Some (k, d)) l ->
  sorted_loop l i acc !! k = Some (Some x).
Proof.
  intros Hk Hl. revert i acc Hk.
  induction Hl as [|e l He _ IH]; intros i acc Hk; [exact Hk |].
  rewrite sorted_loop_cons. apply IH. by apply sorted_turn_keeps.
Qed.

(** The last entry that has a given rank decides what is at that index. *)
Lemma sorted_loop_last_wins (l : list (option (idval Doc))) (i : nat)
    (acc : list (option (idval Doc))) (j k : nat) (e : option (idval Doc))
    (d : Doc) :
  l !! j = Some e ->
  ranked e = Some (k, d) ->
  (forall j' e' d', (j < j')%nat -> l !! j' = Some e' -> ranked e' <> Some (k, d')) ->
  sorted_loop l i acc !! k = Some (Some (VScalar (SDoc d))).
Proof.
  revert i acc j. induction l as [|e0 l IH]; intros i acc j Hj He Hlater.
  - by rewrite lookup_nil in Hj.
  - rewrite sorted_loop_cons. destruct j as [|j].
    + injection Hj as ->.
      apply sorted_loop_keeps.
      * rewrite (sorted_turn_ranked i e acc k d He).
        apply array_set_lookup. by left.
      * apply Forall_forall. intros e' He' d'.
        apply list_elem_of_lookup in He' as [j' Hj'].
        apply (Hlater (S j') e' d'); [lia | exact Hj'].
    + apply (IH _ _ j); [exact Hj | exact He |].
      intros j' e' d' Hlt Hj'. apply (Hlater (S j') e' d'); [lia | exact Hj'].
Qed.

(** A turn for a document without a rank changes nothing. *)
Lemma sorted_turn_unranked (i : nat) (s : scalar Doc)
    (acc : list (option (idval Doc))) :
  is_Some (resultDocs !! String_ Doc_toString s) ->
  resultOrder !! String_ Doc_toString s = None ->
  sorted_turn i (Some (VScalar s)) acc = acc.
Proof.
  intros [d Hd] Hr. unfold sorted_turn. simpl. unfold place. simpl.
  by rewrite andb_false_r, Hd, Hr.
Qed.

End SortedProperties.

(** X15: a recursive call that is sorting places documents by rank, the
    last one winning: the document of an entry is found at the index that the
    order map gives for it, provided no later entry has a document with the
    same rank. *)
Theorem sorted_document_at_rank (Doc : Type) (Doc_toString : Doc -> string)
    (resultDocs : gmap string Doc) (resultOrder : gmap string nat)
    (rawIds : list (option (idval Doc))) (j k : nat)
    (e : option (idval Doc)) (d : Doc) :
  (1 < length rawIds)%nat ->
  rawIds !! j = Some e ->
  ranked_doc Doc_toString resultDocs resultOrder e = Some (k, d) ->
  (forall j' e' d', (j < j')%nat -> rawIds !! j' = Some e' ->
     ranked_doc Doc_toString resultDocs resultOrder e' <> Some (k, d')) ->
  assignRawDocsToIdStructure Doc_toString resultDocs resultOrder true
    rawIds true !! k = Some (Some (VScalar (SDoc d))).
Proof.
  intros Hlen Hj He Hlater. unfold assignRawDocsToIdStructure.
  assert (sorting_of true rawIds = true) as ->
    by (unfold sorting_of; simpl; by apply Nat.ltb_lt).
  apply forEach_assign_lookup; [simpl; lia |]. right.
  split; [lia |]. rewrite Nat.sub_0_r.
  by apply sorted_loop_last_wins with j e.
Qed.

(** X16: a recursive call that is sorting loses the documents that have no
    rank: when every id of the sequence has a document and none has an entry
    in the order map, the rebuilt sequence is empty. *)
Theorem unranked_documents_lost (Doc : Type) (Doc_toString : Doc -> string)
    (resultDocs : gmap string Doc) (resultOrder : gmap string nat)
    (ids : list (scalar Doc)) :
  (1 < length ids)%nat ->
  Forall (fun s => is_Some (resultDocs !! String_ Doc_toString s)
                   /\ resultOrder !! String_ Doc_toString s = None) ids ->
  assignRawDocsToIdStructure Doc_toString resultDocs resultOrder true
    (map (fun s => Some (VScalar s)) ids) true = [].
Proof.
  intros Hlen Hids. unfold assignRawDocsToIdStructure.
  assert (sorting_of true (map (fun s => Some (VScalar s)) ids) = true) as ->
    by (unfold sorting_of; simpl; rewrite length_map; by apply Nat.ltb_lt).
  set (rec := assign_nested Doc_toString resultDocs resultOrder true).
  assert (forall i acc,
            assign_loop Doc_toString resultDocs resultOrder rec true true
              (map (fun s => Some (VScalar s)) ids) i acc = acc) as ->; [| done].
  clear Hlen. induction Hids as [|s ids [Hd Hr] _ IH]; intros i acc; [done |].
  cbn [map]. rewrite sorted_loop_cons.
  rewrite (sorted_turn_unranked Doc_toString resultDocs resultOrder rec i s acc Hd Hr).
  apply IH.
Qed.

Lemma sorted_document_at_rank_witness :
  assignRawDocsToIdStructure object_toString docs_AB order_AB true
    [id_ 2; null_; id_ 1] true !! 1%nat = Some (Some (VScalar (SDoc "DocB"))).
Proof.
  apply (sorted_document_at_rank string object_toString docs_AB order_AB
           [id_ 2; null_; id_ 1] 0%nat 1%nat (id_ 2) "DocB").
  - simpl. lia.
  - reflexivity.
  - reflexivity.
  - intros j' e' d' Hlt He'.
    destruct j' as [|[|[|j']]]; [lia | | |]; vm_compute in He';
      try discriminate He'; injection He' as <-; vm_compute; discriminate.
Defined.

Lemma unranked_documents_lost_witness :
  assignRawDocsToIdStructure object_toString docs_AB ∅ true
    (map (fun s => Some (VScalar s)) [SNum 2; SNum 1]) true = [].
Proof.
  apply (unranked_documents_lost string object_toString docs_AB ∅
           [SNum 2; SNum 1]).
  - simpl. lia.
  - repeat constructor; vm_compute; eauto.
Defined.

(** ** convertTo_id *)

Section ConvertProperties.

Context {Doc : Type}.
Variable instanceof_Model : Doc -> bool.
Variable _id : Doc -> scalar Doc.

Local Abbreviation convert := (convertTo_id instanceof_Model _id).
Local Abbreviation model_instance := (is_Model instanceof_Model).

(** X17: provided the identifier of a model instance is not itself a model
    instance, convertTo_id leaves no model instance, neither as the value
    itself nor among the elements of an array, and converting again changes
    nothing. *)
Theorem convertTo_id_no_model_left (val : idval Doc) :
  (forall d, instanceof_Model d = true -> model_instance (VScalar (_id d)) = false) ->
  model_instance (convert val) = false
  /\ (forall a, convert val = VArr a ->
        Forall (fun e => forall v, e = Some v -> model_instance v = false) a)
  /\ convert (convert val) = convert val.
Proof.
  intros Hid.
  assert (forall e v, convert_element instanceof_Model _id e = Some v ->
                      model_instance v = false) as Helem.
  { intros [[[| | | | |d]|a]|] v; simpl; try (intros [= <-]; reflexivity);
      try discriminate.
    destruct (instanceof_Model d) eqn:E; intros [= <-]; [by apply Hid | exact E]. }
  assert (forall e, (forall v, e = Some v -> model_instance v = false) ->
                    convert_element instanceof_Model _id e = e) as Hfix.
  { intros [[[| | | | |d]|a]|] H; try reflexivity.
    pose proof (H _ eq_refl) as E. simpl in *. by rewrite E. }
  destruct val as [s | a].
  - destruct s as [| | | | |d]; try (by repeat split).
    simpl. destruct (instanceof_Model d) eqn:E.
    + split; [by apply Hid | split; [discriminate |]].
      specialize (Hid d E). destruct (_id d) as [| | | | |d']; try reflexivity.
      simpl in *. by rewrite Hid.
    + split; [exact E | split; [discriminate |]]. simpl. by rewrite E.
  - split; [reflexivity | split].
    + intros a' [= <-]. apply Forall_forall. intros e He.
      apply list_elem_of_In, in_map_iff in He as (e0 & <- & _).
      intros v. apply Helem.
    + simpl. f_equal. rewrite map_map. apply map_ext.
      intros e. apply Hfix. intros v. apply Helem.
Qed.

(** X18: convertTo_id works on one level only: an array keeps its length,
    and its holes, its ids, its plain objects and its nested arrays (with
    whatever they hold) stay as they are; only the elements that are model
    instances are replaced by their identifier. *)
Theorem convertTo_id_array_shape (a : list (option (idval Doc))) :
  exists a',
    convert (VArr a) = VArr a'
    /\ length a' = length a
    /\ (forall i e, a !! i = Some e ->
          (forall v, e = Some v -> model_instance v = false) ->
          a' !! i = Some e)
    /\ (forall i d, a !! i = Some (Some (VScalar (SDoc d))) ->
          instanceof_Model d = true ->
          a' !! i = Some (Some (VScalar (_id d)))).
Proof.
  exists (map (convert_element instanceof_Model _id) a).
  split; [reflexivity |]. split; [by rewrite length_map |]. split.
  - intros i e Hi He. rewrite list_lookup_fmap, Hi. simpl. f_equal.
    destruct e as [[[| | | | |d]|b]|]; try reflexivity.
    pose proof (He _ eq_refl) as E. simpl in *. by rewrite E.
  - intros i d Hi Hd. rewrite list_lookup_fmap, Hi. simpl. by rewrite Hd.
Qed.

End ConvertProperties.

(** Documents named by strings, of which ["user"] is a model instance with
    identifier 7. *)
Definition is_user (d : string) : bool := String.eqb d "user".
Definition id_7 (d : string) : scalar string := SNum 7.

Lemma convertTo_id_no_model_left_witness :
  convertTo_id is_user id_7
    (convertTo_id is_user id_7 (VArr [doc_ "user"; id_ 3; doc_ "lean"]))
  = VArr [id_ 7; id_ 3; doc_ "lean"].
Proof.
  exact (proj2 (proj2 (convertTo_id_no_model_left is_user id_7
                         (VArr [doc_ "user"; id_ 3; doc_ "lean"])
                         (fun d _ => eq_refl)))).
Defined.

(** ** createModel *)

Section CreateModelProperties.

Variable member_toString : string -> string.

Local Abbreviation createModel_ := (createModel member_toString).
Local Abbreviation discriminator_name_ := (discriminator_name member_toString).


End CreateModelProperties.

(** ** lib/index.js *)

Lemma options_get_put (o : Index.Options) (k : string) (v : jsval) :
  k <> "__proto__" ->
  Index.options_get (Index.options_put o k v) k = Index.Value v.
Proof.
  intros Hk. unfold Index.options_put.
  apply String.eqb_neq in Hk. rewrite Hk. cbn [andb].
  unfold Index.options_get. cbn [Index.own]. by rewrite lookup_insert_eq.
Qed.

Lemma options_get_put_ne (o : Index.Options) (k k' : string) (v : jsval) :
  k <> "__proto__" ->
  k' <> k ->
  Index.options_get (Index.options_put o k v) k' = Index.options_get o k'.
Proof.
  intros Hk Hne. unfold Index.options_put.
  apply String.eqb_neq in Hk. rewrite Hk. cbn [andb].
  unfold Index.options_get. cbn [Index.own Index.proto].
  by rewrite lookup_insert_ne.
Qed.

(** X20: an option that was set under any name but [__proto__] is read
    back, also under a name that every object inherits, such as
    [toString]; reading or setting it leaves the other options as they
    were; and [set] with a single argument only reads. *)
Theorem set_then_get (this : Index.Mongoose) (key value : jsval)
    (rest : list jsval) :
  ToPropertyKey key <> "__proto__" ->
  let this' := (Index.set this (key :: value :: rest)).1 in
  Index.get_ this' [key] = (this', Index.Returns (Index.Value value))
  /\ Index.set this [key]
     = (this, Index.Returns
                (Index.options_get (Index.options this) (ToPropertyKey key)))
  /\ forall key', ToPropertyKey key' <> ToPropertyKey key ->
       (Index.get_ this' [key']).2 = (Index.get_ this [key']).2.
Proof.
  intros Hk. unfold Index.get_, Index.set. simpl. split; [| split].
  - by rewrite options_get_put.
  - reflexivity.
  - intros key' Hne. by rewrite options_get_put_ne.
Qed.

(** Once set, [toString] reads as the value given and no longer as the
    method that every object inherits. *)
Lemma set_then_get_witness :
  Index.get_ (Index.set Index.Mongoose_new [JStr "toString"; JNum 5]).1
    [JStr "toString"]
  = ((Index.set Index.Mongoose_new [JStr "toString"; JNum 5]).1,
     Index.Returns (Index.Value (JNum 5))).
Proof.
  exact (proj1 (set_then_get Index.Mongoose_new (JStr "toString") (JNum 5) []
                  ltac:(discriminate))).
Defined.

Lemma compile_schema_cases (s : Index.SchemaObj) :
  let versionKey :=
    ToPropertyKey (default JUndefined (Index.s_options s !! "versionKey")) in
  Index.compile_schema s
  = if Index.versioningEnabled s
       && negb (truthy (default JUndefined (Index.s_paths s !! versionKey)))
    then {| Index.s_options := Index.s_options s;
            Index.s_paths := <[versionKey := JStr "Number"]> (Index.s_paths s) |}
    else s.
Proof. reflexivity. Qed.

Lemma compile_schema_options (s : Index.SchemaObj) :
  Index.s_options (Index.compile_schema s) = Index.s_options s.
Proof. rewrite compile_schema_cases. by destruct (_ && _). Qed.

Lemma compile_schema_path (s : Index.SchemaObj) :
  Index.versioningEnabled s = true ->
  truthy (default JUndefined
            (Index.s_paths (Index.compile_schema s)
               !! ToPropertyKey
                    (default JUndefined (Index.s_options s !! "versionKey"))))
  = true.
Proof.
  intros V. rewrite compile_schema_cases, V. cbn [andb].
  destruct (truthy (default JUndefined (Index.s_paths s !! _))) eqn:P;
    cbn [negb Index.s_paths]; [exact P |].
  by rewrite lookup_insert_eq.
Qed.


(** *** The registry of models *)

(** Caching is on unless the options given as fourth argument have
    [cache: false]. *)
Definition caching (skipInit : Index.SkipInitArg) : bool :=
  match skipInit with
  | Index.SkipInitOptions o =>
      match o !! "cache" with Some (JBool false) => false | _ => true end
  | _ => true
  end.

(** The registry is consistent: a model is stored under its own name, its
    name has a remembered schema, and the schemas referred to exist. *)
Definition registry_ok (this : Index.Mongoose) : Prop :=
  (forall n m, Index.models this !! n = Some m ->
     Index.modelName m = n
     /\ is_Some (Index.modelSchemas this !! n)
     /\ Index.schema m ∈ dom (Index.heap this))
  /\ (forall n r, Index.modelSchemas this !! n = Some r ->
        r ∈ dom (Index.heap this)).

Lemma plain_get_Some {A} (o : gmap string A) (k : string) (a : A) :
  o !! k = Some a -> plain_get o k = Own a.
Proof. unfold plain_get. by intros ->. Qed.

Lemma plain_get_Missing {A} (o : gmap string A) (k : string) :
  o !! k = None -> inherited k = false -> plain_get o k = Missing.
Proof. unfold plain_get. by intros -> ->. Qed.

Lemma plain_get_Member {A} (o : gmap string A) (k : string) :
  o !! k = None -> inherited k = true -> plain_get o k = Member.
Proof. unfold plain_get. by intros -> ->. Qed.

Lemma plain_get_Own_inv {A} (o : gmap string A) (k : string) (a : A) :
  plain_get o k = Own a -> o !! k = Some a.
Proof.
  unfold plain_get. destruct (o !! k); [by intros [= ->] |].
  by destruct (inherited k).
Qed.

Lemma plain_get_Missing_inv {A} (o : gmap string A) (k : string) :
  plain_get o k = Missing -> o !! k = None /\ inherited k = false.
Proof.
  unfold plain_get. destruct (o !! k); [discriminate |].
  by destruct (inherited k).
Qed.

Lemma plain_get_Member_inv {A} (o : gmap string A) (k : string) :
  plain_get o k = Member -> o !! k = None /\ inherited k = true.
Proof.
  unfold plain_get. destruct (o !! k); [discriminate |].
  by destruct (inherited k).
Qed.

(** The test [false !== options.cache] of [model], as [caching] has it. *)
Lemma cache_option (skipInit : Index.SkipInitArg) :
  match
    match skipInit with
    | Index.SkipInitOptions o => o
    | _ => ∅
    end !! "cache"
  with
  | Some (JBool false) => false
  | _ => true
  end = caching skipInit.
Proof. by destruct skipInit. Qed.

Section RegistryProperties.

Variable Schema_new : gmap string jsval -> Index.SchemaObj.
Variable Schema_plugin : nat -> jsval -> Index.SchemaObj -> Index.SchemaObj.
Variable SchemaDefaults : gmap string nat.
Variable toCollectionName : string -> gmap string jsval -> string.

Local Abbreviation model_ :=
  (Index.model Schema_new Schema_plugin SchemaDefaults toCollectionName).
Local Abbreviation define_ := (Index.define toCollectionName).

(** X22: asking for a model by a name for which no schema is remembered,
    and which is not a name that every object inherits, without giving a
    schema (the name alone, or the name and a collection), throws
    MissingSchemaError, unless the name is one of the schema defaults; the
    instance is left as it was. *)
Theorem model_missing_schema (this : Index.Mongoose) (name : string)
    (schema : Index.SchemaArg) (collection : Index.CollectionArg)
    (skipInit : Index.SkipInitArg) :
  schema = Index.NoSchema \/ (exists s, schema = Index.SchemaString s) ->
  Index.modelSchemas this !! name = None ->
  inherited name = false ->
  SchemaDefaults !! name = None ->
  model_ this name schema collection skipInit
  = (this, inl (Index.MissingSchemaError name)).
Proof.
  intros Hs Hm Hi Hd. unfold Index.model.
  destruct Hs as [-> | [s ->]];
    by rewrite (plain_get_Missing _ _ Hm Hi), Hd.
Qed.

(** A model that is cached, and whose name finds something in
    [modelSchemas], is what [model(name)] returns, and the call changes
    nothing. *)
Lemma model_retrieve (this : Index.Mongoose) (name : string)
    (m : Index.ModelObj) :
  Index.models this !! name = Some m ->
  plain_get (Index.modelSchemas this) name <> Missing ->
  model_ this name Index.NoSchema Index.NoCollection Index.NoSkipInit
  = (this, inr (Index.AModel m)).
Proof.
  intros Hm Hr. unfold Index.model. cbv zeta.
  destruct (plain_get (Index.modelSchemas this) name); try done;
    cbn; by rewrite (plain_get_Some _ _ _ Hm).
Qed.

(** What [define] leaves when it caches. *)
Lemma define_cached (this this1 : Index.Mongoose) (name : string)
    (schema : option nat) (collection : jsval) (skipInit : bool)
    (r : Index.Returned) :
  define_ this name schema collection skipInit true = (this1, inr r) ->
  exists m,
    r = Index.AModel m
    /\ Index.models this1 = <[name := m]> (Index.models this)
    /\ Index.modelSchemas this1 = Index.modelSchemas this
    /\ dom (Index.heap this1) = dom (Index.heap this)
    /\ Index.modelName m = name
    /\ (exists ref, Index.schema m = ref
          /\ (schema = Some ref
              \/ (schema = None /\ Index.modelSchemas this !! name = Some ref))).
Proof.
  unfold Index.define, Index.compile. intros H.
  destruct schema as [ref|];
    [| destruct (plain_get (Index.modelSchemas this) name) as [ref| |] eqn:E;
       [apply plain_get_Own_inv in E | |]];
    try discriminate H;
    destruct skipInit; injection H as <- <-; eexists; cbn;
      rewrite ?dom_alter_L; repeat split; eauto.
Qed.

(** [model(name, schema)] with a schema and nothing else. *)
Lemma model_with_schema (this : Index.Mongoose) (name : string) (ref : nat) :
  model_ this name (Index.SchemaInstance ref) Index.NoCollection
    Index.NoSkipInit
  = let this0 :=
      match plain_get (Index.modelSchemas this) name with
      | Missing =>
          Index.with_heap
            (alter (Index._applyPlugins Schema_plugin this) ref (Index.heap this))
            (Index.with_modelSchemas (<[name := ref]> (Index.modelSchemas this))
               this)
      | _ => this
      end in
    match plain_get (Index.models this0) name with
    | Own cached =>
        if negb (ref =? Index.schema cached)%nat
        then (this0, inl (Index.OverwriteModelError name))
        else (this0, inr (Index.AModel cached))
    | Member => (this0, inl (Index.OverwriteModelError name))
    | Missing => define_ this0 name (Some ref) JNull false true
    end.
Proof.
  unfold Index.model. cbv zeta.
  by destruct (plain_get (Index.modelSchemas this) name).
Qed.

(** X23: a model defined with [model(name, schema)] is what [model(name)]
    returns from then on, with the registry left as it is; and the name is
    among [modelNames()]. *)
Theorem model_define_then_retrieve (this this1 : Index.Mongoose)
    (name : string) (ref : nat) (m : Index.ModelObj) :
  model_ this name (Index.SchemaInstance ref) Index.NoCollection
    Index.NoSkipInit = (this1, inr (Index.AModel m)) ->
  model_ this1 name Index.NoSchema Index.NoCollection Index.NoSkipInit
  = (this1, inr (Index.AModel m))
  /\ name ∈ Index.modelNames this1.
Proof.
  rewrite model_with_schema. cbv zeta.
  set (this0 := match plain_get (Index.modelSchemas this) name with
                | Missing => _ | _ => this end).
  assert (plain_get (Index.modelSchemas this0) name <> Missing) as Hs0.
  { subst this0.
    destruct (plain_get (Index.modelSchemas this) name) eqn:E;
      rewrite ?E; try done.
    cbn. unfold plain_get. by rewrite lookup_insert_eq. }
  intros H.
  assert (Index.models this1 !! name = Some m
          /\ plain_get (Index.modelSchemas this1) name <> Missing) as [Hm Hs].
  { destruct (plain_get (Index.models this0) name) as [cached| |] eqn:Ec.
    - destruct (negb (ref =? Index.schema cached)%nat); [discriminate H |].
      injection H as <- <-. by apply plain_get_Own_inv in Ec.
    - discriminate H.
    - apply define_cached in H as (m' & [= <-] & Hm & Hs & _).
      rewrite Hm, Hs. by rewrite lookup_insert_eq. }
  split; [by apply model_retrieve |].
  unfold Index.modelNames. apply list_elem_of_fmap.
  exists (name, m). split; [done |]. by apply elem_of_map_to_list.
Qed.

(** X24: giving another schema for a name whose model is cached throws
    OverwriteModelError and leaves the instance as it was, whatever the
    collection, as long as caching is on. *)
Theorem model_overwrite (this : Index.Mongoose) (name : string) (ref : nat)
    (cached : Index.ModelObj) (collection : Index.CollectionArg)
    (skipInit : Index.SkipInitArg) :
  Index.models this !! name = Some cached ->
  is_Some (Index.modelSchemas this !! name) ->
  ref <> Index.schema cached ->
  caching (Index.skipInit_of (Index.SchemaInstance ref) collection skipInit)
  = true ->
  model_ this name (Index.SchemaInstance ref) collection skipInit
  = (this, inl (Index.OverwriteModelError name)).
Proof.
  intros Hm [r Hr] Hne Hc. unfold Index.model.
  cbv zeta. rewrite (plain_get_Some _ _ _ Hr), cache_option, Hc.
  rewrite (plain_get_Some _ _ _ Hm). apply Nat.eqb_neq in Hne. by rewrite Hne.
Qed.

(** X25: a plain object given as the schema for a name whose model is
    cached always throws OverwriteModelError, in a consistent registry: the
    schema made from it is a new one, never that of the cached model.  The
    models and the remembered schemas are left as they were. *)
Theorem model_overwrite_definition (this : Index.Mongoose) (name : string)
    (definition : gmap string jsval) (cached : Index.ModelObj)
    (collection : Index.CollectionArg) (skipInit : Index.SkipInitArg) :
  registry_ok this ->
  Index.models this !! name = Some cached ->
  caching (Index.skipInit_of (Index.SchemaDefinition definition) collection
             skipInit) = true ->
  let result := model_ this name (Index.SchemaDefinition definition)
                  collection skipInit in
  result.2 = inl (Index.OverwriteModelError name)
  /\ Index.models result.1 = Index.models this
  /\ Index.modelSchemas result.1 = Index.modelSchemas this.
Proof.
  intros [Hok _] Hm Hc.
  destruct (Hok name cached Hm) as (_ & [r Hr] & Hin).
  unfold Index.model. cbv zeta.
  cbn [Index.modelSchemas Index.with_heap Index.models].
  rewrite (plain_get_Some _ _ _ Hr), cache_option, Hc.
  cbn [Index.models Index.with_heap]. rewrite (plain_get_Some _ _ _ Hm).
  assert (fresh (dom (Index.heap this)) <> Index.schema cached) as Hne.
  { intros Heq. rewrite <- Heq in Hin. by apply is_fresh in Hin. }
  apply Nat.eqb_neq in Hne. rewrite Hne. done.
Qed.

(** X26: with the option [cache: false] a model is compiled for the schema
    given, whether a model of that name is cached or not (no
    OverwriteModelError); it is returned without being stored in [models],
    and [init] is not called on it.  The schema is remembered for the name
    when [modelSchemas] finds nothing under it; it is not when a schema is
    remembered already, nor when the name is one that every object
    inherits. *)
Theorem model_uncached (this : Index.Mongoose) (name : string) (ref : nat)
    (o : gmap string jsval) (collection : Index.CollectionArg) :
  o !! "cache" = Some (JBool false) ->
  (forall b, collection <> Index.CollectionBool b) ->
  exists this1 base,
    model_ this name (Index.SchemaInstance ref) collection
      (Index.SkipInitOptions o)
    = (this1, inr (Index.AModel (Index.Compiled name ref base)))
    /\ Index.models this1 = Index.models this
    /\ Index.inits this1 = Index.inits this
    /\ Index.modelSchemas this1
       = match plain_get (Index.modelSchemas this) name with
         | Missing => <[name := ref]> (Index.modelSchemas this)
         | _ => Index.modelSchemas this
         end.
Proof.
  intros Ho Hb. unfold Index.model. cbv zeta.
  assert (Index.skipInit_of (Index.SchemaInstance ref) collection
            (Index.SkipInitOptions o) = Index.SkipInitOptions o) as ->.
  { destruct collection as [| |b]; try reflexivity. by destruct (Hb b). }
  rewrite Ho.
  destruct (plain_get (Index.modelSchemas this) name) as [r| |] eqn:Er;
    unfold Index.define, Index.compile; cbn;
    eexists _, _; (split; [reflexivity |]); cbn; done.
Qed.

(** X28: for a name that every object inherits, such as [constructor] or
    [toString], and under which nothing was stored, [model] finds the
    member of [Object.prototype] in the place of a model: with caching on
    it never throws MissingSchemaError; it throws OverwriteModelError when
    a schema is given, throws a TypeError when a collection is given
    without a schema, and returns the member when the name alone is given.
    In every case the instance is left as it was. *)
Theorem model_inherited_name (this : Index.Mongoose) (name : string)
    (schema : Index.SchemaArg) (collection : Index.CollectionArg)
    (skipInit : Index.SkipInitArg) :
  inherited name = true ->
  Index.models this !! name = None ->
  Index.modelSchemas this !! name = None ->
  caching (Index.skipInit_of schema collection skipInit) = true ->
  let result := model_ this name schema collection skipInit in
  Index.models result.1 = Index.models this
  /\ Index.modelSchemas result.1 = Index.modelSchemas this
  /\ Index.inits result.1 = Index.inits this
  /\ result.2
     = match schema with
       | Index.SchemaInstance _ | Index.SchemaDefinition _ =>
           inl (Index.OverwriteModelError name)
       | Index.SchemaString _ | Index.NoSchema =>
           if truthy (Index.collection_of schema collection)
           then inl Index.TypeError
           else inr (Index.ObjectMember name)
       end.
Proof.
  intros Hi Hm Hs Hc. unfold Index.model. cbv zeta.
  rewrite cache_option, Hc.
  destruct schema as [|s|definition|ref];
    cbn [Index.modelSchemas Index.models Index.with_heap];
    rewrite (plain_get_Member _ _ Hs Hi);
    cbn [Index.modelSchemas Index.models Index.with_heap];
    rewrite (plain_get_Member _ _ Hm Hi);
    try done;
    by destruct (truthy _).
Qed.

Lemma registry_ok_ext (this this' : Index.Mongoose) :
  Index.models this' = Index.models this ->
  Index.modelSchemas this' = Index.modelSchemas this ->
  dom (Index.heap this) ⊆ dom (Index.heap this') ->
  registry_ok this -> registry_ok this'.
Proof.
  intros Hm Hs Hh [H1 H2]. unfold registry_ok. rewrite Hm, Hs. split.
  - intros n m Hn. destruct (H1 n m Hn) as (? & ? & ?). set_solver.
  - intros n r Hn. specialize (H2 n r Hn). set_solver.
Qed.

Lemma registry_ok_remember (this this' : Index.Mongoose) (name : string)
    (ref : nat) :
  Index.models this' = Index.models this ->
  Index.modelSchemas this' = <[name := ref]> (Index.modelSchemas this) ->
  dom (Index.heap this) ⊆ dom (Index.heap this') ->
  ref ∈ dom (Index.heap this) ->
  registry_ok this -> registry_ok this'.
Proof.
  intros Hm Hs Hh Hr [H1 H2]. unfold registry_ok. rewrite Hm, Hs. split.
  - intros n m Hn. destruct (H1 n m Hn) as (? & ? & ?).
    split; [done |]. split; [| set_solver].
    destruct (decide (name = n)) as [-> | Hne];
      [rewrite lookup_insert_eq; eauto | by rewrite lookup_insert_ne].
  - intros n r Hn.
    destruct (decide (name = n)) as [-> | Hne].
    + rewrite lookup_insert_eq in Hn. injection Hn as <-. set_solver.
    + rewrite lookup_insert_ne in Hn by done. specialize (H2 n r Hn). set_solver.
Qed.

Lemma define_ok (this : Index.Mongoose) (name : string) (schema : option nat)
    (collection : jsval) (skipInit cache : bool) :
  registry_ok this ->
  (cache = true -> is_Some (Index.modelSchemas this !! name)) ->
  (forall r, schema = Some r -> r ∈ dom (Index.heap this)) ->
  registry_ok (define_ this name schema collection skipInit cache).1.
Proof.
  intros Hok Hr0 Hs. unfold Index.define.
  destruct (match schema with
            | Some ref => Own ref
            | None => plain_get (Index.modelSchemas this) name
            end) as [ref| |] eqn:Es; [| done | done].
  assert (ref ∈ dom (Index.heap this)) as Href.
  { destruct schema as [r|]; [injection Es as <-; by apply Hs |].
    apply plain_get_Own_inv in Es. destruct Hok as [_ H2]. by apply (H2 name). }
  unfold Index.compile.
  destruct cache.
  - specialize (Hr0 eq_refl). destruct Hok as [H1 H2]. split.
    + intros n m. destruct skipInit; cbn; rewrite ?dom_alter_L;
        (destruct (decide (name = n)) as [-> | Hne];
         [rewrite lookup_insert_eq; intros [= <-]; cbn; eauto
         | rewrite lookup_insert_ne by done; apply H1]).
    + intros n r. destruct skipInit; cbn; rewrite ?dom_alter_L; apply H2.
  - apply (registry_ok_ext this); [| | | exact Hok];
      destruct skipInit; cbn; rewrite ?dom_alter_L; done.
Qed.

(** X27: [model] keeps the registry consistent, whatever its arguments and
    whether it returns or throws: every cached model is stored under its own
    name, every cached name has a remembered schema, and every schema
    referred to exists; provided the schema given, and the schema defaults,
    exist. *)
Theorem model_keeps_registry_ok (this : Index.Mongoose) (name : string)
    (schema : Index.SchemaArg) (collection : Index.CollectionArg)
    (skipInit : Index.SkipInitArg) :
  registry_ok this ->
  (forall ref, schema = Index.SchemaInstance ref -> ref ∈ dom (Index.heap this)) ->
  (forall n r, SchemaDefaults !! n = Some r -> r ∈ dom (Index.heap this)) ->
  registry_ok (model_ this name schema collection skipInit).1.
Proof.
  intros Hok Href Hdef. unfold Index.model. cbv zeta.
  rewrite cache_option.
  set (sk := Index.skipInit_of schema collection skipInit).
  set (coll := Index.collection_of schema collection).
  (* the instance and the schema after a plain object became a schema *)
  assert (exists this_a schema_a,
            match schema with
            | Index.NoSchema | Index.SchemaString _ => (this, None)
            | Index.SchemaDefinition definition =>
                (Index.with_heap
                   (<[fresh (dom (Index.heap this)) := Schema_new definition]>
                      (Index.heap this)) this,
                 Some (fresh (dom (Index.heap this))))
            | Index.SchemaInstance ref => (this, Some ref)
            end = (this_a, schema_a)
            /\ registry_ok this_a
            /\ dom (Index.heap this) ⊆ dom (Index.heap this_a)
            /\ (forall r, schema_a = Some r -> r ∈ dom (Index.heap this_a)))
    as (this_a & schema_a & -> & Hok_a & Hsub & Hsa).
  { destruct schema as [|s|definition|ref]; eexists _, _;
      (split; [reflexivity |]).
    - split; [done | split; [done | intros r H; discriminate H]].
    - split; [done | split; [done | intros r H; discriminate H]].
    - split; [| split].
      + apply (registry_ok_ext this); try done. cbn. set_solver.
      + cbn. set_solver.
      + intros r [= <-]. cbn. set_solver.
    - split; [done | split; [done |]]. intros r [= <-]. by apply Href. }
  (* what is left once a schema was looked up *)
  assert (forall this_b schema_b,
            registry_ok this_b ->
            (plain_get (Index.models this_b) name = Missing ->
             is_Some (Index.modelSchemas this_b !! name)) ->
            (forall r, schema_b = Some r -> r ∈ dom (Index.heap this_b)) ->
            registry_ok
              (match (if caching sk then plain_get (Index.models this_b) name
                      else Missing) with
               | Own cached =>
                   if match schema_b with
                      | Some ref => negb (ref =? Index.schema cached)%nat
                      | None => false
                      end
                   then (this_b, inl (Index.OverwriteModelError name))
                   else if truthy coll
                   then (Index.with_inits
                           (Index.Subclass cached :: Index.inits this_b) this_b,
                         inr (Index.AModel (Index.Subclass cached)))
                   else (this_b, inr (Index.AModel cached))
               | Member =>
                   if match schema_b with Some _ => true | None => false end
                   then (this_b, inl (Index.OverwriteModelError name))
                   else if truthy coll
                   then (this_b, inl Index.TypeError)
                   else (this_b, inr (Index.ObjectMember name))
               | Missing =>
                   define_ this_b name schema_b coll
                     match sk with
                     | Index.NoSkipInit => false
                     | Index.SkipInitBool b => b
                     | Index.SkipInitOptions _ => true
                     end (caching sk)
               end).1) as Hrest.
  { intros this_b schema_b Hok_b Hrem Hsb.
    destruct (caching sk) eqn:Hc.
    - destruct (plain_get (Index.models this_b) name) as [cached| |] eqn:Em.
      + destruct (match schema_b with Some _ => _ | None => false end);
          [done |].
        destruct (truthy coll); [| done].
        by apply (registry_ok_ext this_b).
      + destruct (match schema_b with Some _ => true | None => false end);
          [done |].
        by destruct (truthy coll).
      + apply define_ok; auto.
    - unfold Index.define.
      destruct (match schema_b with
                | Some ref => Own ref
                | None => plain_get (Index.modelSchemas this_b) name
                end); [| done | done].
      unfold Index.compile.
      apply (registry_ok_ext this_b); [| | | exact Hok_b];
        destruct (match sk with
                  | Index.NoSkipInit => false
                  | Index.SkipInitBool b => b
                  | Index.SkipInitOptions _ => true
                  end); cbn; rewrite ?dom_alter_L; done. }
  destruct (plain_get (Index.modelSchemas this_a) name) as [r0| |] eqn:E0.
  - apply Hrest; try done.
    intros _. apply plain_get_Own_inv in E0. eauto.
  - apply Hrest; try done.
    intros Hmiss. apply plain_get_Missing_inv in Hmiss as [_ Hi].
    apply plain_get_Member_inv in E0 as [_ Hi']. congruence.
  - destruct (match schema_a with
              | Some _ => schema_a
              | None => SchemaDefaults !! name
              end) as [ref|] eqn:Es; [| done].
    assert (ref ∈ dom (Index.heap this_a)) as Hin.
    { destruct schema_a as [r|]; [injection Es as <-; by apply Hsa |].
      apply Hsub. by apply (Hdef name). }
    set (this_b := Index.with_heap _ _).
    assert (registry_ok this_b) as Hok_b.
    { apply (registry_ok_remember this_a this_b name ref); try done.
      subst this_b. cbn. by rewrite dom_alter_L. }
    apply (Hrest this_b (Some ref)); try done.
    + intros _. subst this_b. cbn. rewrite lookup_insert_eq. eauto.
    + intros r [= <-]. subst this_b. cbn. by rewrite dom_alter_L.
Qed.

End RegistryProperties.

Lemma registry_ok_new : registry_ok mongoose_0.
Proof.
  split.
  - intros n m H. vm_compute in H. discriminate H.
  - intros n r H. vm_compute in H. discriminate H.
Qed.

Lemma registry_ok_Cat : registry_ok mongoose_Cat.
Proof.
  split.
  - intros n m H. change (Index.models mongoose_Cat) with
      (<["Cat" := Cat]> (∅ : gmap string Index.ModelObj)) in H.
    apply lookup_insert_Some in H as [[<- <-] | [_ H]]; [| done].
    split; [reflexivity |]. split; [by eexists |].
    apply elem_of_dom. by eexists.
  - intros n r H. change (Index.modelSchemas mongoose_Cat) with
      (<["Cat" := 0%nat]> (∅ : gmap string nat)) in H.
    apply lookup_insert_Some in H as [[<- <-] | [_ H]]; [| done].
    apply elem_of_dom. by eexists.
Qed.

Lemma model_missing_schema_witness :
  sample_model mongoose_0 "Dog" Index.NoSchema Index.NoCollection
    Index.NoSkipInit
  = (mongoose_0, inl (Index.MissingSchemaError "Dog")).
Proof.
  exact (model_missing_schema sample_Schema_new sample_Schema_plugin ∅
           sample_toCollectionName mongoose_0 "Dog" Index.NoSchema
           Index.NoCollection Index.NoSkipInit (or_introl eq_refl)
           eq_refl eq_refl eq_refl).
Defined.

Lemma model_define_then_retrieve_witness :
  sample_model mongoose_Cat "Cat" Index.NoSchema Index.NoCollection
    Index.NoSkipInit = (mongoose_Cat, inr (Index.AModel Cat))
  /\ "Cat" ∈ Index.modelNames mongoose_Cat.
Proof.
  exact (model_define_then_retrieve sample_Schema_new sample_Schema_plugin ∅
           sample_toCollectionName mongoose_0 mongoose_Cat "Cat" 0 Cat
           eq_refl).
Defined.

Lemma model_overwrite_witness :
  sample_model mongoose_Cat "Cat" (Index.SchemaInstance 1)
    (Index.CollectionName "felines") Index.NoSkipInit
  = (mongoose_Cat, inl (Index.OverwriteModelError "Cat")).
Proof.
  apply (model_overwrite sample_Schema_new sample_Schema_plugin ∅
           sample_toCollectionName mongoose_Cat "Cat" 1 Cat).
  - reflexivity.
  - by eexists.
  - discriminate.
  - reflexivity.
Defined.

Lemma model_overwrite_definition_witness :
  let result := sample_model mongoose_Cat "Cat"
                  (Index.SchemaDefinition {[ "name" := JStr "String" ]})
                  Index.NoCollection Index.NoSkipInit in
  result.2 = inl (Index.OverwriteModelError "Cat")
  /\ Index.models result.1 = Index.models mongoose_Cat
  /\ Index.modelSchemas result.1 = Index.modelSchemas mongoose_Cat.
Proof.
  apply (model_overwrite_definition sample_Schema_new sample_Schema_plugin ∅
           sample_toCollectionName mongoose_Cat "Cat"
           {[ "name" := JStr "String" ]} Cat).
  - exact registry_ok_Cat.
  - reflexivity.
  - reflexivity.
Defined.

Lemma model_uncached_witness :
  exists this1 base,
    sample_model mongoose_0 "constructor" (Index.SchemaInstance 1)
      Index.NoCollection (Index.SkipInitOptions {[ "cache" := JBool false ]})
    = (this1, inr (Index.AModel (Index.Compiled "constructor" 1 base)))
    /\ Index.models this1 = Index.models mongoose_0
    /\ Index.inits this1 = Index.inits mongoose_0
    /\ Index.modelSchemas this1
       = match plain_get (Index.modelSchemas mongoose_0) "constructor" with
         | Missing => <["constructor" := 1%nat]> (Index.modelSchemas mongoose_0)
         | _ => Index.modelSchemas mongoose_0
         end.
Proof.
  apply (model_uncached sample_Schema_new sample_Schema_plugin ∅
           sample_toCollectionName mongoose_0 "constructor" 1
           {[ "cache" := JBool false ]} Index.NoCollection).
  - reflexivity.
  - discriminate.
Defined.

Lemma model_inherited_name_witness :
  let result := sample_model mongoose_0 "constructor" Index.NoSchema
                  Index.NoCollection Index.NoSkipInit in
  Index.models result.1 = Index.models mongoose_0
  /\ Index.modelSchemas result.1 = Index.modelSchemas mongoose_0
  /\ Index.inits result.1 = Index.inits mongoose_0
  /\ result.2 = inr (Index.ObjectMember "constructor").
Proof.
  exact (model_inherited_name sample_Schema_new sample_Schema_plugin ∅
           sample_toCollectionName mongoose_0 "constructor" Index.NoSchema
           Index.NoCollection Index.NoSkipInit eq_refl eq_refl eq_refl
           eq_refl).
Defined.

Lemma model_keeps_registry_ok_witness :
  registry_ok
    (sample_model mongoose_0 "Cat" (Index.SchemaInstance 0) Index.NoCollection
       Index.NoSkipInit).1.
Proof.
  apply (model_keeps_registry_ok sample_Schema_new sample_Schema_plugin ∅
           sample_toCollectionName mongoose_0 "Cat" (Index.SchemaInstance 0)).
  - exact registry_ok_new.
  - intros ref [= <-]. apply elem_of_dom. by eexists.
  - intros n r H. rewrite lookup_empty in H. discriminate H.
Defined.
